(** * Circle-of-fifths MIDI visualiser: the music-state engine of [vis.py]

    A shallow embedding of the tables, of [recognize_chord], of [get_scale]
    and of the MIDI branch of the main loop, followed by the properties
    that the specification states about them; then of
    [draw_circle_of_fifths], of [Button] and of the button branch of the
    main loop, with what the code itself shows of them.

    Python integers are [Z]; [%] with the positive divisor 12 is
    [Z.modulo]; a Python [set] is a [gset]; a [dict] is a [gmap]; a
    function that may raise returns a [result]. *)

From Stdlib Require Import ZArith Lia.
From stdpp Require Import base decidable option list sorting numbers
  strings gmap sets.

Local Open Scope string_scope.
Local Open Scope Z_scope.

(** ** Python values and exceptions *)

Inductive exn : Type :=
  | KeyError
  | IndexError
  | ValueError.

Inductive result (A : Type) : Type :=
  | Ok (a : A)
  | Raise (e : exn).

Arguments Ok {A} a.
Arguments Raise {A} e.

#[export] Instance result_ret : MRet result := λ A a, Ok a.

#[export] Instance result_bind : MBind result := λ A B k r,
  match r with
  | Ok a => k a
  | Raise e => Raise e
  end.

Definition of_option {A : Type} (e : exn) (o : option A) : result A :=
  match o with
  | Some a => Ok a
  | None => Raise e
  end.

(** [l[i]] on a Python list: a negative index counts from the end. *)
Definition py_index {A : Type} (l : list A) (i : Z) : option A :=
  if decide (0 ≤ i) then l !! Z.to_nat i
  else if decide (- Z.of_nat (length l) ≤ i)
       then l !! Z.to_nat (Z.of_nat (length l) + i)
       else None.

(** [min(s)] on a Python collection: [ValueError] on an empty one. *)
Definition py_min (l : list Z) : option Z :=
  match l with
  | [] => None
  | x :: l' => Some (foldr Z.min x l')
  end.

(** [sorted(l)] on integers. *)
Definition sorted (l : list Z) : list Z := merge_sort Z.le l.

(** ** The tables (lines 18-41) *)

Definition NOTES : list string :=
  ["C"; "G"; "D"; "A"; "E"; "B"; "F#/Gb"; "C#/Db"; "G#/Ab"; "D#/Eb";
   "A#/Bb"; "F"].

Definition MIDI_TO_CIRCLE_items : list (Z * Z) :=
  [(0, 0); (1, 7); (2, 2); (3, 9); (4, 4); (5, 11); (6, 6); (7, 1);
   (8, 8); (9, 3); (10, 10); (11, 5)].

Definition MIDI_TO_CIRCLE : gmap Z Z := list_to_map MIDI_TO_CIRCLE_items.

Definition MAJOR_SCALE : list Z := [0; 2; 4; 5; 7; 9; 11].
Definition NATURAL_MINOR_SCALE : list Z := [0; 2; 3; 5; 7; 8; 10].
Definition HARMONIC_MINOR_SCALE : list Z := [0; 2; 3; 5; 7; 8; 11].
Definition PENTATONIC_SCALE : list Z := [0; 2; 4; 7; 9].

Definition CHORD_TYPES_items : list (list Z * string) :=
  [ ([0; 4; 7], "Major");
    ([0; 3; 7], "Minor");
    ([0; 4; 7; 10], "Dominant 7th");
    ([0; 3; 7; 10], "Minor 7th");
    ([0; 4; 7; 11], "Major 7th");
    ([0; 3; 6], "Diminished");
    ([0; 3; 6; 9], "Diminished 7th");
    ([0; 4; 8], "Augmented");
    ([0; 2; 7], "Sus2");
    ([0; 5; 7], "Sus4");
    ([0; 4; 7; 9], "6th");
    ([0; 3; 7; 9], "Minor 6th");
    ([0; 4; 7; 10; 14], "9th");
    ([0; 4; 7; 10; 14; 17], "11th");
    ([0; 4; 7; 10; 14; 17; 21], "13th") ].

Definition CHORD_TYPES : gmap (list Z) string :=
  list_to_map CHORD_TYPES_items.

(** [NOTES[MIDI_TO_CIRCLE[pc]]] (lines 118, 176, 242-243, 253-254): the
    name of a pitch class. *)
Definition note_name (pc : Z) : option string :=
  MIDI_TO_CIRCLE !! pc ≫= py_index NOTES.

(** ** [recognize_chord] (lines 110-119) *)

(** The generator [(note - root) % 12 for note in pressed_notes], sorted
    and turned into a tuple.  The iteration order of the set does not
    matter, the result is sorted. *)
Definition intervals_of (root : Z) (pressed_notes : gset Z) : list Z :=
  sorted ((λ note, (note - root) mod 12) <$> elements pressed_notes).

Definition chord_info : Type := string * Z * string.

Definition recognize_chord (pressed_notes : gset Z)
  : result (option chord_info) :=
  if decide (size pressed_notes < 3)%nat then Ok None
  else
    root ← of_option ValueError (py_min (elements pressed_notes));
    let intervals := intervals_of root pressed_notes in
    let chord_type := default "Complex" (CHORD_TYPES !! intervals) in
    circle_index ← of_option KeyError (MIDI_TO_CIRCLE !! (root mod 12));
    root_name ← of_option IndexError (py_index NOTES circle_index);
    Ok (Some (root_name ++ " " ++ chord_type, root mod 12, chord_type)).

(** The chord type of a call's result, when it has one. *)
Definition chord_type_of (r : result (option chord_info)) : option string :=
  match r with
  | Ok (Some (_, _, chord_type)) => Some chord_type
  | _ => None
  end.

(** The held notes all moved by [t] semitones. *)
Definition transpose (t : Z) (pressed_notes : gset Z) : gset Z :=
  set_map (λ note, note + t) pressed_notes.

(** ** [get_scale] (lines 121-130) *)

Definition get_scale (root : Z) (scale_type : string) : list Z :=
  if decide (scale_type = "Major") then
    (λ interval, (root + interval) mod 12) <$> MAJOR_SCALE
  else if decide (scale_type = "Natural Minor") then
    (λ interval, (root + interval) mod 12) <$> NATURAL_MINOR_SCALE
  else if decide (scale_type = "Harmonic Minor") then
    (λ interval, (root + interval) mod 12) <$> HARMONIC_MINOR_SCALE
  else if decide (scale_type = "Pentatonic") then
    (λ interval, (root + interval) mod 12) <$> PENTATONIC_SCALE
  else [].

(** Line 147 of [draw_circle_of_fifths]: the scale that is highlighted. *)
Definition scale_notes (scale_root : option Z) (scale_type : string)
  : list Z :=
  match scale_root with
  | Some root => get_scale root scale_type
  | None => []
  end.

(** ** The MIDI branch of the main loop (lines 206-261) *)

(** A sound of [generate_note_sounds]: the sine wave of one MIDI note. *)
Inductive sound : Type := SineSound (midi_note : Z).

(** [generate_note_sounds()]: one sound per note of [range(128)]. *)
Definition note_sounds : gmap Z sound :=
  list_to_map ((λ midi_note, (midi_note, SineSound midi_note)) <$> seqZ 0 128).

(** The variables of [main] that the MIDI branch reads and writes. *)
Record engine : Type := Engine {
  pressed_midi_notes : gset Z;
  pressed_circle_notes : gset string;
  active_sounds : gmap Z sound;
  scale_root : option Z
}.

Definition set_pressed_midi_notes (v : gset Z) (s : engine) : engine :=
  Engine v (pressed_circle_notes s) (active_sounds s) (scale_root s).
Definition set_pressed_circle_notes (v : gset string) (s : engine) : engine :=
  Engine (pressed_midi_notes s) v (active_sounds s) (scale_root s).
Definition set_active_sounds (v : gmap Z sound) (s : engine) : engine :=
  Engine (pressed_midi_notes s) (pressed_circle_notes s) v (scale_root s).
Definition set_scale_root (v : option Z) (s : engine) : engine :=
  Engine (pressed_midi_notes s) (pressed_circle_notes s) (active_sounds s) v.

(** Lines 206-209. *)
Definition initial : engine := Engine ∅ ∅ ∅ None.

(** Statements of the loop body: they read and write the engine, and an
    exception leaves the engine as it was when it was raised. *)
Definition M (A : Type) : Type := engine → result A * engine.

#[export] Instance M_ret : MRet M := λ A a s, (Ok a, s).

#[export] Instance M_bind : MBind M := λ A B k m s,
  match m s with
  | (Ok a, s') => k a s'
  | (Raise e, s') => (Raise e, s')
  end.

Definition raise {A : Type} (e : exn) : M A := λ s, (Raise e, s).

Definition lookup_or_raise {A : Type} (e : exn) (o : option A) : M A :=
  match o with
  | Some a => mret a
  | None => raise e
  end.

Definition gets {A : Type} (f : engine → A) : M A := λ s, (Ok (f s), s).

Definition modify (f : engine → engine) : M unit := λ s, (Ok (), f s).

(** A MIDI event as [midi_input.read] gives it: [event[0][0]],
    [event[0][1]] and [event[0][2]]. *)
Definition midi_event : Type := Z * Z * Z.

(** Lines 236-261: the body of [for event in midi_events].  Playing and
    stopping a sound and printing are not part of the engine. *)
Definition process_event (event : midi_event) : M unit :=
  let '(status_byte, note, velocity) := event in
  let status := Z.land status_byte 0xF0 in
  if decide (status = 0x90 ∧ velocity > 0) then
    held ← gets pressed_midi_notes;
    modify (set_pressed_midi_notes ({[note]} ∪ held));;
    note_index ← lookup_or_raise KeyError (MIDI_TO_CIRCLE !! (note mod 12));
    note_name ← lookup_or_raise IndexError (py_index NOTES note_index);
    names ← gets pressed_circle_notes;
    modify (set_pressed_circle_notes ({[note_name]} ∪ names));;
    active ← gets active_sounds;
    (if decide (active !! note = None) then
       snd ← lookup_or_raise KeyError (note_sounds !! note);
       modify (set_active_sounds (<[note := snd]> active))
     else mret ());;
    held ← gets pressed_midi_notes;
    if decide (size held = 1%nat)
    then modify (set_scale_root (Some (note mod 12)))
    else mret ()
  else if decide (status = 0x80 ∨ (status = 0x90 ∧ velocity = 0)) then
    held ← gets pressed_midi_notes;
    modify (set_pressed_midi_notes (held ∖ {[note]}));;
    note_index ← lookup_or_raise KeyError (MIDI_TO_CIRCLE !! (note mod 12));
    note_name ← lookup_or_raise IndexError (py_index NOTES note_index);
    names ← gets pressed_circle_notes;
    modify (set_pressed_circle_notes (names ∖ {[note_name]}));;
    active ← gets active_sounds;
    (if decide (is_Some (active !! note))
     then modify (set_active_sounds (delete note active))
     else mret ());;
    held ← gets pressed_midi_notes;
    if decide (size held = 0%nat)
    then modify (set_scale_root None)
    else mret ()
  else mret ().

(** The [for] loop over the events that one poll has read. *)
Fixpoint process_events (events : list midi_event) : M unit :=
  match events with
  | [] => mret ()
  | event :: events' => process_event event;; process_events events'
  end.

(** The states the loop can be in: every event so far was processed
    without an exception (an exception ends [main]). *)
Inductive reachable : engine → Prop :=
  | reachable_initial : reachable initial
  | reachable_event (s s' : engine) (event : midi_event) :
      reachable s →
      process_event event s = (Ok (), s') →
      reachable s'.

(** What holds of every state of the loop: the held notes and the notes
    with an active sound are notes of [note_sounds], and there is a scale
    root only while a note is held. *)
Definition engine_inv (s : engine) : Prop :=
  (∀ note, note ∈ pressed_midi_notes s → 0 ≤ note < 128)
  ∧ (∀ note, is_Some (active_sounds s !! note) → 0 ≤ note < 128)
  ∧ (pressed_midi_notes s = ∅ → scale_root s = None).

(** How the four variables hang together in every state of the loop. *)
Definition engine_coherent (s : engine) : Prop :=
  dom (active_sounds s) = pressed_midi_notes s
  ∧ (∀ note snd, active_sounds s !! note = Some snd → snd = SineSound note)
  ∧ (scale_root s = None ↔ pressed_midi_notes s = ∅)
  ∧ (∀ root, scale_root s = Some root → 0 ≤ root < 12)
  ∧ (∀ name, name ∈ pressed_circle_notes s →
       ∃ note, note ∈ pressed_midi_notes s
               ∧ note_name (note mod 12) = Some name).

(** Lines 263-266: what one turn of the loop hands to the drawing code. *)
Definition snapshot (scale_type : string) (show_scale : bool) (s : engine)
  : result (option chord_info) * option Z * list Z :=
  let shown_root := if show_scale then scale_root s else None in
  (recognize_chord (pressed_midi_notes s), shown_root,
   scale_notes shown_root scale_type).

(** ** Python strings: [in] and [str.replace] *)

(** [sub in s] on strings. *)
Fixpoint contains (sub s : string) : bool :=
  String.prefix sub s
  || match s with
     | EmptyString => false
     | String _ s' => contains sub s'
     end.

(** [s.replace(old, new)] for a non-empty [old]: the occurrences are
    replaced from the left, [skip] counting the characters of an occurrence
    that are still to be dropped. *)
Fixpoint replace_from (old new : string) (skip : nat) (s : string) : string :=
  match s with
  | EmptyString => EmptyString
  | String c s' =>
      match skip with
      | S skip' => replace_from old new skip' s'
      | O =>
          if String.prefix old s
          then new ++ replace_from old new (String.length old - 1) s'
          else String c (replace_from old new 0 s')
      end
  end.

(** [s.replace("", new)]: [new] before every character and at the end. *)
Fixpoint interleave (new s : string) : string :=
  new ++ match s with
         | EmptyString => EmptyString
         | String c s' => String c (interleave new s')
         end.

Definition replace (old new s : string) : string :=
  match old with
  | EmptyString => interleave new s
  | String _ _ => replace_from old new 0 s
  end.

(** ** [draw_circle_of_fifths] (lines 132-180) *)

Definition rgb : Type := Z * Z * Z.

(** Lines 12-16. *)
Definition BLACK : rgb := (0, 0, 0).
Definition WHITE : rgb := (255, 255, 255).
Definition GRAY : rgb := (200, 200, 200).
Definition LIGHT_BLUE : rgb := (173, 216, 230).
Definition SCALE_COLOR : rgb := (100, 255, 100).

(** A colour handed to [pygame.draw]: one of the constants, or the result
    of the call [note_to_color(note, is_major, is_seventh)], which is
    computed in floating point and is kept as the call. *)
Inductive color : Type :=
  | Rgb (c : rgb)
  | note_to_color (note : Z) (is_major is_seventh : bool).

(** Lines 139-140. *)
Definition is_major (chord_type : string) : bool :=
  contains "Major" chord_type || contains "Augmented" chord_type
  || contains "Dominant" chord_type.

Definition is_seventh (chord_type : string) : bool :=
  contains "7th" chord_type || contains "9th" chord_type
  || contains "11th" chord_type || contains "13th" chord_type.

(** Lines 137-145: [highlight_color], which is [line_color] too. *)
Definition highlight_color (info : option chord_info) : color :=
  match info with
  | Some (_, root_note, chord_type) =>
      note_to_color root_note (is_major chord_type) (is_seventh chord_type)
  | None => Rgb WHITE
  end.

(** Line 155: the colour of the circle at the position [i] of [NOTES]. *)
Definition circle_color (pressed_notes : gset string)
    (info : option chord_info) (scale : list Z) (i : nat) (note : string)
  : color :=
  if decide (note ∈ pressed_notes) then highlight_color info
  else if decide (Z.of_nat i ∈ scale) then Rgb SCALE_COLOR
  else Rgb GRAY.

(** What one call draws: for each position of [NOTES] the colour of the
    circle and the text on it, whether the outline through the pressed
    positions is drawn (line 166), and the two texts of lines 169-180.
    The coordinates are floating point and are left out. *)
Record scene : Type := Scene {
  circles : list (color * string);
  outline : bool;
  chord_text : option string;
  scale_text : option string
}.

Definition draw_circle_of_fifths (pressed_notes : gset string)
    (info : option chord_info) (scale_root : option Z) (scale_type : string)
    (show_note_names : bool) : result scene :=
  let scale := scale_notes scale_root scale_type in
  let drawn :=
    imap (λ i note,
            (circle_color pressed_notes info scale i note,
             if show_note_names then note else ""))
         NOTES in
  let pressed_positions :=
    filter (λ note, note ∈ pressed_notes) NOTES in
  let lines := bool_decide (1 < length pressed_positions)%nat in
  let title := match info with
               | Some (chord_name, _, _) => Some chord_name
               | None => None
               end in
  match scale_root with
  | Some root =>
      circle_index ← of_option KeyError (MIDI_TO_CIRCLE !! root);
      root_name ← of_option IndexError (py_index NOTES circle_index);
      Ok (Scene drawn lines title
            (Some (root_name ++ " " ++ scale_type ++ " Scale")))
  | None => Ok (Scene drawn lines title None)
  end.

#[export] Instance color_eq_dec : EqDecision color.
Proof. solve_decision. Defined.

(** Whether the circle of the pitch class [pc] has the scale colour in a
    scene; the circle of a pitch class is the one at the position
    [MIDI_TO_CIRCLE[pc]], as in lines 242-243. *)
Definition scale_coloured (sc : scene) (pc : Z) : bool :=
  match MIDI_TO_CIRCLE !! pc ≫= (λ i, circles sc !! Z.to_nat i) with
  | Some (c, _) => bool_decide (c = Rgb SCALE_COLOR)
  | None => false
  end.

(** Lines 263-266: one turn of the loop draws the engine. *)
Definition render (scale_type : string) (show_scale show_note_names : bool)
    (s : engine) : result scene :=
  info ← recognize_chord (pressed_midi_notes s);
  draw_circle_of_fifths (pressed_circle_notes s) info
    (if show_scale then scale_root s else None) scale_type show_note_names.

(** ** [Button] (lines 43-65) and the buttons of [main] (lines 196-231) *)

(** A [pygame] event, as far as the code reads it: its type, and for a
    mouse button event the button and the position. *)
Inductive pygame_event : Type :=
  | QUIT
  | MOUSEBUTTONDOWN (button : Z) (pos : Z * Z)
  | OtherEvent.

(** [pygame.Rect(x, y, width, height)]. *)
Definition Rect : Type := Z * Z * Z * Z.

Module Button.

Record t : Type := Build {
  rect : Rect;
  text : string;
  color : rgb;
  text_color : rgb;
  toggle : bool;
  active : bool
}.

(** Lines 44-50. *)
Definition init (x y width height : Z) (text : string)
    (color text_color : rgb) (toggle : bool) : t :=
  Build (x, y, width, height) text color text_color toggle false.

Definition set_active (v : bool) (self : t) : t :=
  Build (rect self) (text self) (color self) (text_color self)
    (toggle self) v.

(** Lines 59-65: the button after the call, and what the call returns.
    [collidepoint] is [pygame.Rect.collidepoint]. *)
Definition handle_event (collidepoint : Rect → Z * Z → bool) (self : t)
    (event : pygame_event) : t * bool :=
  match event with
  | MOUSEBUTTONDOWN button pos =>
      if decide (button = 1) then
        if collidepoint (rect self) pos then
          (if toggle self then set_active (negb (active self)) self
           else self,
           true)
        else (self, false)
      else (self, false)
  | _ => (self, false)
  end.

End Button.

Module Main.

Definition CIRCLE_WIDTH : Z := 800.

(** Lines 196-203. *)
Definition buttons0 : list Button.t :=
  [ Button.init (CIRCLE_WIDTH + 10) 50 180 40 "Toggle Scale Highlight"
      WHITE BLACK true;
    Button.init (CIRCLE_WIDTH + 10) 100 180 40 "Toggle Note Names"
      WHITE BLACK true;
    Button.init (CIRCLE_WIDTH + 10) 150 180 40 "Major Scale"
      WHITE BLACK true;
    Button.init (CIRCLE_WIDTH + 10) 200 180 40 "Natural Minor Scale"
      WHITE BLACK true;
    Button.init (CIRCLE_WIDTH + 10) 250 180 40 "Harmonic Minor Scale"
      WHITE BLACK true;
    Button.init (CIRCLE_WIDTH + 10) 300 180 40 "Pentatonic Scale"
      WHITE BLACK true ].

(** The variables of [main] that the event branch reads and writes. *)
Record state : Type := State {
  buttons : list Button.t;
  running : bool;
  scale_type : string;
  show_scale : bool;
  show_note_names : bool
}.

(** Lines 205-212. *)
Definition initial : state := State buttons0 true "Major" false false.

(** Lines 229-231: every button of [buttons[2:]] but the one at the
    position [i] is made inactive; [b != button] compares the objects. *)
Definition deactivate_others (i : nat) (l : list Button.t)
  : list Button.t :=
  imap (λ j b, if decide (2 ≤ j ∧ j ≠ i)%nat
               then Button.set_active false b else b) l.

(** Lines 222-231: the body of [for button in buttons] for the button at
    the position [i]. *)
Definition click (collidepoint : Rect → Z * Z → bool)
    (event : pygame_event) (u : state) (i : nat) : state :=
  match buttons u !! i with
  | None => u
  | Some button =>
      let '(button, handled) :=
        Button.handle_event collidepoint button event in
      let l := <[i := button]> (buttons u) in
      if handled then
        if decide (Button.text button = "Toggle Scale Highlight") then
          State l (running u) (scale_type u) (Button.active button)
            (show_note_names u)
        else if decide (Button.text button = "Toggle Note Names") then
          State l (running u) (scale_type u) (show_scale u)
            (Button.active button)
        else if contains "Scale" (Button.text button) then
          State (deactivate_others i l) (running u)
            (replace " Scale" "" (Button.text button))
            (show_scale u) (show_note_names u)
        else
          State l (running u) (scale_type u) (show_scale u)
            (show_note_names u)
      else
        State l (running u) (scale_type u) (show_scale u)
          (show_note_names u)
  end.

(** Lines 218-231: the body of [for event in pygame.event.get()]. *)
Definition handle (collidepoint : Rect → Z * Z → bool)
    (event : pygame_event) (u : state) : state :=
  let u :=
    match event with
    | QUIT =>
        State (buttons u) false (scale_type u) (show_scale u)
          (show_note_names u)
    | _ => u
    end in
  foldl (click collidepoint event) u (seq 0 (length (buttons u))).

(** The states of the buttons and toggles that the loop can be in. *)
Inductive reachable (collidepoint : Rect → Z * Z → bool)
  : state → Prop :=
  | reachable_initial : reachable collidepoint initial
  | reachable_event (u : state) (event : pygame_event) :
      reachable collidepoint u →
      reachable collidepoint (handle collidepoint event u).

(** What every such state satisfies. *)
Definition inv (u : state) : Prop :=
  Button.set_active false <$> buttons u = buttons0
  ∧ scale_type u
    ∈ ["Major"; "Natural Minor"; "Harmonic Minor"; "Pentatonic"]
  ∧ (∀ j b, buttons u !! j = Some b → (2 ≤ j)%nat →
       Button.active b = true →
       scale_type u = replace " Scale" "" (Button.text b))
  ∧ (∀ b, buttons u !! 0%nat = Some b → show_scale u = Button.active b)
  ∧ (∀ b, buttons u !! 1%nat = Some b →
       show_note_names u = Button.active b).

(** [pygame.Rect.collidepoint] as the library documents it: the left and
    top edges are inside, the right and bottom edges are not. *)
Definition inside (r : Rect) (pos : Z * Z) : bool :=
  let '(x, y, width, height) := r in
  let '(px, py) := pos in
  bool_decide (x ≤ px < x + width ∧ y ≤ py < y + height).

End Main.

(** Case analysis on a pitch class [H : 0 ≤ pc < 12]. *)
Ltac each_pitch_class H :=
  match type of H with
  | 0 ≤ ?pc < 12 =>
      assert (pc = 0 ∨ pc = 1 ∨ pc = 2 ∨ pc = 3 ∨ pc = 4 ∨ pc = 5 ∨ pc = 6
              ∨ pc = 7 ∨ pc = 8 ∨ pc = 9 ∨ pc = 10 ∨ pc = 11) as H' by lia;
      clear H; destruct_or! H'; subst
  end.

(** * Properties *)

Example recognize_C_major :
  recognize_chord {[60; 64; 67]} = Ok (Some ("C Major", 0, "Major")).
Proof. vm_compute. reflexivity. Qed.

Example recognize_C_dim :
  recognize_chord {[60; 63; 66]} = Ok (Some ("C Diminished", 0, "Diminished")).
Proof. vm_compute. reflexivity. Qed.

Example recognize_two_notes : recognize_chord {[60; 64]} = Ok None.
Proof. vm_compute. reflexivity. Qed.

Example get_scale_C_major : get_scale 0 "Major" = [0; 2; 4; 5; 7; 9; 11].
Proof. reflexivity. Qed.

Example get_scale_D_major : get_scale 2 "Major" = [2; 4; 6; 7; 9; 11; 1].
Proof. reflexivity. Qed.

Example note_on_200 :
  process_event (0x90, 200, 64) initial
  = (Raise KeyError, Engine {[200]} {["G#/Ab"]} ∅ None).
Proof. vm_compute. reflexivity. Qed.

(** ** The tables *)

Lemma mod12_bound (n : Z) : 0 ≤ n mod 12 < 12.
Proof. apply Z.mod_pos_bound. lia. Qed.

Lemma MIDI_TO_CIRCLE_total (pc : Z) :
  0 ≤ pc < 12 →
  ∃ index, MIDI_TO_CIRCLE !! pc = Some index ∧ 0 ≤ index < 12.
Proof.
  intros H. each_pitch_class H;
    (eexists; split; [vm_compute; reflexivity | lia]).
Qed.

Lemma NOTES_total (index : Z) :
  0 ≤ index < 12 → is_Some (py_index NOTES index).
Proof. intros H. each_pitch_class H; vm_compute; eauto. Qed.

(** C9: [MIDI_TO_CIRCLE] is a bijection on the pitch classes 0..11: it is
    defined on each of them with a value in 0..11, two different pitch
    classes have different circle indices, and every circle index in 0..11
    is the image of a pitch class. *)
Theorem MIDI_TO_CIRCLE_bijection :
  (∀ i, 0 ≤ i ≤ 11 → ∃ c, MIDI_TO_CIRCLE !! i = Some c ∧ 0 ≤ c ≤ 11)
  ∧ (∀ i j, 0 ≤ i ≤ 11 → 0 ≤ j ≤ 11 → i ≠ j →
       MIDI_TO_CIRCLE !! i ≠ MIDI_TO_CIRCLE !! j)
  ∧ (∀ c, 0 ≤ c ≤ 11 → ∃ i, 0 ≤ i ≤ 11 ∧ MIDI_TO_CIRCLE !! i = Some c)
  ∧ dom MIDI_TO_CIRCLE = list_to_set (seqZ 0 12).
Proof.
  split_and!.
  - intros i Hi. destruct (MIDI_TO_CIRCLE_total i) as (c & Hc & ?); [lia|].
    exists c. split; [done | lia].
  - intros i j Hi Hj Hij.
    assert (Hi' : 0 ≤ i < 12) by lia. assert (Hj' : 0 ≤ j < 12) by lia.
    each_pitch_class Hi'; each_pitch_class Hj';
      first [ done | vm_compute; discriminate ].
  - intros c Hc. assert (Hc' : 0 ≤ c < 12) by lia.
    each_pitch_class Hc';
      [ exists 0 | exists 7 | exists 2 | exists 9 | exists 4 | exists 11
      | exists 6 | exists 1 | exists 8 | exists 3 | exists 10 | exists 5 ];
      (split; [lia | vm_compute; reflexivity]).
  - apply set_eq. intros x.
    rewrite elem_of_dom, elem_of_list_to_set, elem_of_seqZ. split.
    + intros [c Hc]. apply elem_of_list_to_map_2 in Hc.
      unfold MIDI_TO_CIRCLE_items in Hc.
      rewrite !elem_of_cons, elem_of_nil in Hc.
      destruct_or!; simplify_eq; lia.
    + intros Hx. destruct (MIDI_TO_CIRCLE_total x) as (c & Hc & _); [lia|].
      by exists c.
Qed.

Lemma MIDI_TO_CIRCLE_bijection_witness :
  MIDI_TO_CIRCLE !! 1 ≠ MIDI_TO_CIRCLE !! 7
  ∧ ∃ i, 0 ≤ i ≤ 11 ∧ MIDI_TO_CIRCLE !! i = Some 7.
Proof.
  destruct MIDI_TO_CIRCLE_bijection as (_ & Hinj & Hsurj & _).
  split.
  - apply Hinj; lia.
  - apply Hsurj; lia.
Defined.

(** ** [get_scale] *)

(** C10: for every integer root and each of the four scale names, every
    element of [get_scale root scale_type] is in 0..11 and the list is as
    long as the pattern: 7 for Major, Natural Minor and Harmonic Minor, 5
    for Pentatonic. *)
Theorem get_scale_range_length (root : Z) (scale_type : string) :
  scale_type ∈ ["Major"; "Natural Minor"; "Harmonic Minor"; "Pentatonic"] →
  (∀ pc, pc ∈ get_scale root scale_type → 0 ≤ pc ≤ 11)
  ∧ length (get_scale root scale_type)
    = (if decide (scale_type = "Pentatonic") then 5 else 7)%nat.
Proof.
  intros Hty. rewrite !elem_of_cons, elem_of_nil in Hty.
  assert (Hin : ∀ (pattern : list Z) pc,
    pc ∈ (λ interval, (root + interval) mod 12) <$> pattern → 0 ≤ pc ≤ 11).
  { intros pattern pc (interval & -> & _)%list_elem_of_fmap.
    pose proof (mod12_bound (root + interval)). lia. }
  destruct_or!; try done; subst scale_type;
    (split; [| vm_compute; reflexivity]);
    intros pc; unfold get_scale; repeat case_decide; try done; apply Hin.
Qed.

Lemma get_scale_range_length_witness :
  (∀ pc, pc ∈ get_scale (-5) "Pentatonic" → 0 ≤ pc ≤ 11)
  ∧ length (get_scale (-5) "Pentatonic") = 5%nat.
Proof.
  apply (get_scale_range_length (-5) "Pentatonic").
  rewrite !elem_of_cons. auto.
Defined.

(** C4, as the code has it: a scale name outside the four is not an error;
    [get_scale] returns the empty list for it, the same list that the
    drawing code uses when no scale root is selected. *)
Theorem get_scale_unknown_name (root : Z) (scale_type : string) :
  scale_type ∉ ["Major"; "Natural Minor"; "Harmonic Minor"; "Pentatonic"] →
  get_scale root scale_type = []
  ∧ scale_notes (Some root) scale_type = scale_notes None scale_type.
Proof.
  intros Hty. rewrite !not_elem_of_cons in Hty.
  destruct Hty as (? & ? & ? & ? & _).
  unfold scale_notes, get_scale. by repeat case_decide.
Qed.

Lemma get_scale_unknown_name_witness :
  get_scale 0 "Dorian" = []
  ∧ scale_notes (Some 0) "Dorian" = scale_notes None "Dorian".
Proof.
  apply (get_scale_unknown_name 0 "Dorian").
  rewrite !not_elem_of_cons. split_and!; try discriminate.
  apply not_elem_of_nil.
Defined.

(** C4, as the specification states it, fails: for the root 0 and the
    name Dorian, which is none of the four, the call returns, and what it
    returns is the empty list. *)
Lemma get_scale_unknown_name_is_silent :
  ("Dorian" ∉ ["Major"; "Natural Minor"; "Harmonic Minor"; "Pentatonic"])
  ∧ get_scale 0 "Dorian" = [].
Proof.
  split; [|reflexivity].
  rewrite !not_elem_of_cons. split_and!; try discriminate.
  apply not_elem_of_nil.
Qed.

(** ** [recognize_chord] *)

Lemma foldr_min_spec (x : Z) (l : list Z) :
  foldr Z.min x l ∈ x :: l ∧ ∀ y, y ∈ x :: l → foldr Z.min x l ≤ y.
Proof.
  induction l as [|z l [IHin IHle]]; simpl.
  - split; [left|]. intros y ->%list_elem_of_singleton. lia.
  - split.
    + destruct (Z.min_spec z (foldr Z.min x l)) as [[_ ->] | [_ ->]].
      * right; left.
      * apply elem_of_cons in IHin as [-> | ?]; [left | right; by right].
    + intros y Hy. rewrite !elem_of_cons in Hy.
      destruct Hy as [-> | [-> | Hy]].
      * etrans; [apply Z.le_min_r | apply IHle; left].
      * apply Z.le_min_l.
      * etrans; [apply Z.le_min_r | apply IHle; by right].
Qed.

Lemma py_min_spec (l : list Z) (m : Z) :
  py_min l = Some m → m ∈ l ∧ ∀ y, y ∈ l → m ≤ y.
Proof.
  destruct l as [|x l]; simpl; [done|].
  intros [= <-]. apply foldr_min_spec.
Qed.

Lemma py_min_is_Some (l : list Z) : l ≠ [] → is_Some (py_min l).
Proof. destruct l; [done | eauto]. Qed.

Lemma note_name_total (n : Z) : is_Some (note_name (n mod 12)).
Proof.
  unfold note_name.
  destruct (MIDI_TO_CIRCLE_total (n mod 12)) as (index & -> & Hindex);
    [apply mod12_bound|].
  simpl. by apply NOTES_total.
Qed.

(** What [recognize_chord] returns once three notes are held: the root is
    the lowest held note, and the chord type is the table's entry for the
    interval tuple, or Complex. *)
Lemma recognize_chord_spec (pressed_notes : gset Z) :
  (3 ≤ size pressed_notes)%nat →
  ∃ root root_name,
    py_min (elements pressed_notes) = Some root
    ∧ root ∈ pressed_notes
    ∧ (∀ note, note ∈ pressed_notes → root ≤ note)
    ∧ note_name (root mod 12) = Some root_name
    ∧ recognize_chord pressed_notes
      = let chord_type :=
          default "Complex" (CHORD_TYPES !! intervals_of root pressed_notes) in
        Ok (Some (root_name ++ " " ++ chord_type, root mod 12, chord_type)).
Proof.
  intros Hsize.
  destruct (py_min_is_Some (elements pressed_notes)) as [root Hroot].
  { intros Hnil. apply elements_empty_inv, leibniz_equiv in Hnil.
    subst. rewrite size_empty in Hsize. lia. }
  destruct (py_min_spec _ _ Hroot) as [Hin Hle].
  destruct (note_name_total root) as [root_name Hname].
  exists root, root_name. split_and!; [done | set_solver | | done |].
  - intros note Hnote. apply Hle. set_solver.
  - unfold recognize_chord. rewrite decide_False by lia.
    rewrite Hroot. cbn [of_option mbind result_bind].
    unfold note_name in Hname.
    destruct (MIDI_TO_CIRCLE !! (root mod 12)) as [index|]; [|done].
    cbn [mbind option_bind] in Hname.
    cbn [of_option mbind result_bind]. rewrite Hname. reflexivity.
Qed.

Lemma recognize_chord_none (pressed_notes : gset Z) :
  recognize_chord pressed_notes = Ok None ↔ (size pressed_notes < 3)%nat.
Proof.
  split.
  - intros Hnone. destruct (decide (size pressed_notes < 3)%nat); [done|].
    destruct (recognize_chord_spec pressed_notes) as (? & ? & _ & _ & _ & _ & Heq);
      [lia|].
    rewrite Heq in Hnone. discriminate.
  - intros Hsize. unfold recognize_chord. by rewrite decide_True.
Qed.

Lemma intervals_of_Permutation (root : Z) (pressed_notes : gset Z) :
  intervals_of root pressed_notes
  ≡ₚ (λ note, (note - root) mod 12) <$> elements pressed_notes.
Proof. apply merge_sort_Permutation. Qed.

Lemma intervals_of_Sorted (root : Z) (pressed_notes : gset Z) :
  Sorted Z.le (intervals_of root pressed_notes).
Proof. apply (Sorted_merge_sort Z.le). Qed.

Lemma intervals_of_length (root : Z) (pressed_notes : gset Z) :
  length (intervals_of root pressed_notes) = size pressed_notes.
Proof. by rewrite intervals_of_Permutation, length_fmap. Qed.

Lemma intervals_of_elem (root : Z) (pressed_notes : gset Z) (i : Z) :
  i ∈ intervals_of root pressed_notes
  ↔ ∃ note, note ∈ pressed_notes ∧ i = (note - root) mod 12.
Proof.
  rewrite intervals_of_Permutation, list_elem_of_fmap.
  split; intros (note & ? & ?); exists note; set_solver.
Qed.

Lemma intervals_of_range (root : Z) (pressed_notes : gset Z) (i : Z) :
  i ∈ intervals_of root pressed_notes → 0 ≤ i ≤ 11.
Proof.
  intros (note & _ & ->)%intervals_of_elem.
  pose proof (mod12_bound (note - root)). lia.
Qed.

Lemma CHORD_TYPES_lookup (intervals : list Z) (chord_type : string) :
  CHORD_TYPES !! intervals = Some chord_type →
  (intervals, chord_type) ∈ CHORD_TYPES_items.
Proof. apply elem_of_list_to_map_2. Qed.

Lemma CHORD_TYPES_keys_NoDup (intervals : list Z) :
  is_Some (CHORD_TYPES !! intervals) → NoDup intervals.
Proof.
  intros [chord_type Hin%CHORD_TYPES_lookup].
  assert (Hall : Forall (λ item, NoDup item.1) CHORD_TYPES_items).
  { apply (bool_decide_unpack _). vm_compute. reflexivity. }
  rewrite Forall_forall in Hall. apply (Hall _ Hin).
Qed.

Lemma NoDup_fmap_eq {A B : Type} (f : A → B) (l : list A) (x y : A) :
  NoDup (f <$> l) → x ∈ l → y ∈ l → f x = f y → x = y.
Proof.
  induction l as [|a l IH]; [by intros _ ?%elem_of_nil|].
  rewrite fmap_cons, NoDup_cons, !elem_of_cons.
  intros [Hnotin Hnodup] [-> | Hx] [-> | Hy] Hf; [done | | | by apply IH].
  - destruct Hnotin. rewrite Hf. by apply list_elem_of_fmap_2.
  - destruct Hnotin. rewrite <- Hf. by apply list_elem_of_fmap_2.
Qed.

Lemma same_pitch_class_same_interval (root n1 n2 : Z) :
  n1 mod 12 = n2 mod 12 → (n1 - root) mod 12 = (n2 - root) mod 12.
Proof. intros H. rewrite (Zminus_mod n1), (Zminus_mod n2), H. done. Qed.

(** A pitch class held in two octaves gives the same interval twice. *)
Lemma doubled_pitch_class_not_NoDup (root : Z) (pressed_notes : gset Z)
    (n1 n2 : Z) :
  n1 ∈ pressed_notes → n2 ∈ pressed_notes → n1 ≠ n2 →
  n1 mod 12 = n2 mod 12 →
  ¬ NoDup (intervals_of root pressed_notes).
Proof.
  intros H1 H2 Hne Hpc Hnodup.
  rewrite intervals_of_Permutation in Hnodup.
  apply Hne.
  apply (NoDup_fmap_eq (λ note, (note - root) mod 12)
           (elements pressed_notes) n1 n2 Hnodup).
  - by apply elem_of_elements.
  - by apply elem_of_elements.
  - by apply same_pitch_class_same_interval.
Qed.

(** No key of [CHORD_TYPES] has a repeated offset, so such a tuple is no
    shape of the table. *)
Lemma doubled_pitch_class_no_shape (root : Z) (pressed_notes : gset Z)
    (n1 n2 : Z) :
  n1 ∈ pressed_notes → n2 ∈ pressed_notes → n1 ≠ n2 →
  n1 mod 12 = n2 mod 12 →
  CHORD_TYPES !! intervals_of root pressed_notes = None.
Proof.
  intros H1 H2 Hne Hpc. apply eq_None_not_Some.
  intros Hnodup%CHORD_TYPES_keys_NoDup.
  by apply (doubled_pitch_class_not_NoDup root pressed_notes n1 n2).
Qed.

(** C1, as the code has it: once three notes are held, the interval tuple
    is the sorted tuple of [(note - root) mod 12] over the held notes with
    one entry for each held note (nothing is removed: it is as long as the
    held set), the root being the lowest held note and contributing 0; the
    chord type is the table's entry for that tuple, or Complex; and two
    held notes of one pitch class give the same entry twice, so that the
    tuple is no shape of the table and the chord type is Complex. *)
Theorem intervals_sorted_not_deduplicated (pressed_notes : gset Z) :
  (3 ≤ size pressed_notes)%nat →
  ∃ root root_name,
    root ∈ pressed_notes
    ∧ (∀ note, note ∈ pressed_notes → root ≤ note)
    ∧ note_name (root mod 12) = Some root_name
    ∧ Sorted Z.le (intervals_of root pressed_notes)
    ∧ intervals_of root pressed_notes
      ≡ₚ (λ note, (note - root) mod 12) <$> elements pressed_notes
    ∧ length (intervals_of root pressed_notes) = size pressed_notes
    ∧ 0 ∈ intervals_of root pressed_notes
    ∧ recognize_chord pressed_notes
      = (let chord_type :=
           default "Complex" (CHORD_TYPES !! intervals_of root pressed_notes) in
         Ok (Some (root_name ++ " " ++ chord_type, root mod 12, chord_type)))
    ∧ (∀ n1 n2, n1 ∈ pressed_notes → n2 ∈ pressed_notes → n1 ≠ n2 →
         n1 mod 12 = n2 mod 12 →
         ¬ NoDup (intervals_of root pressed_notes)
         ∧ recognize_chord pressed_notes
           = Ok (Some (root_name ++ " Complex", root mod 12, "Complex"))).
Proof.
  intros Hsize.
  destruct (recognize_chord_spec pressed_notes Hsize)
    as (root & root_name & _ & Hin & Hle & Hname & Heq).
  exists root, root_name.
  split_and!; try done.
  - apply intervals_of_Sorted.
  - apply intervals_of_Permutation.
  - apply intervals_of_length.
  - apply intervals_of_elem. exists root. split; [done|].
    by rewrite Z.sub_diag.
  - intros n1 n2 H1 H2 Hne Hpc. split.
    + by apply (doubled_pitch_class_not_NoDup root pressed_notes n1 n2).
    + rewrite Heq.
      by rewrite (doubled_pitch_class_no_shape root pressed_notes n1 n2).
Qed.

Lemma intervals_sorted_not_deduplicated_witness :
  ∃ root root_name,
    root ∈ ({[60; 64; 67; 72]} : gset Z)
    ∧ (∀ note, note ∈ ({[60; 64; 67; 72]} : gset Z) → root ≤ note)
    ∧ note_name (root mod 12) = Some root_name
    ∧ Sorted Z.le (intervals_of root {[60; 64; 67; 72]})
    ∧ intervals_of root {[60; 64; 67; 72]}
      ≡ₚ (λ note, (note - root) mod 12) <$> elements ({[60; 64; 67; 72]} : gset Z)
    ∧ length (intervals_of root {[60; 64; 67; 72]})
      = size ({[60; 64; 67; 72]} : gset Z)
    ∧ 0 ∈ intervals_of root {[60; 64; 67; 72]}
    ∧ recognize_chord {[60; 64; 67; 72]}
      = (let chord_type :=
           default "Complex"
             (CHORD_TYPES !! intervals_of root {[60; 64; 67; 72]}) in
         Ok (Some (root_name ++ " " ++ chord_type, root mod 12, chord_type)))
    ∧ (∀ n1 n2, n1 ∈ ({[60; 64; 67; 72]} : gset Z) →
         n2 ∈ ({[60; 64; 67; 72]} : gset Z) → n1 ≠ n2 →
         n1 mod 12 = n2 mod 12 →
         ¬ NoDup (intervals_of root {[60; 64; 67; 72]})
         ∧ recognize_chord {[60; 64; 67; 72]}
           = Ok (Some (root_name ++ " Complex", root mod 12, "Complex"))).
Proof.
  apply (intervals_sorted_not_deduplicated {[60; 64; 67; 72]}).
  vm_compute. lia.
Defined.

(** C1, as the specification states it, fails: for the held notes 60, 64,
    67 and 72 the lowest note is 60 and the tuple is (0,0,4,7), with the 0
    of 60 and the 0 of 72, and not (0,4,7); the chord is not recognised as
    Major. *)
Lemma intervals_keep_doubled_pitch_class :
  py_min (elements ({[60; 64; 67; 72]} : gset Z)) = Some 60
  ∧ intervals_of 60 {[60; 64; 67; 72]} = [0; 0; 4; 7]
  ∧ intervals_of 60 {[60; 64; 67; 72]} ≠ [0; 4; 7]
  ∧ CHORD_TYPES !! [0; 4; 7] = Some "Major"
  ∧ recognize_chord {[60; 64; 67; 72]} = Ok (Some ("C Complex", 0, "Complex")).
Proof. split_and!; vm_compute; congruence. Qed.

(** The three extended shapes are the only keys of the three extended
    chord types. *)
Lemma extended_chord_key (intervals : list Z) (chord_type : string) :
  CHORD_TYPES !! intervals = Some chord_type →
  chord_type ∈ ["9th"; "11th"; "13th"] →
  14 ∈ intervals.
Proof.
  intros Hin%CHORD_TYPES_lookup Hty.
  unfold CHORD_TYPES_items in Hin.
  rewrite !elem_of_cons, elem_of_nil in Hin.
  rewrite !elem_of_cons, elem_of_nil in Hty.
  destruct Hty as [-> | [-> | [-> | []]]];
    destruct_or!; simplify_eq; set_solver.
Qed.

(** C3: the entries 9th, 11th and 13th of [CHORD_TYPES] have offsets above
    11, every element of the interval tuple that [recognize_chord]
    computes is in 0..11, and so [recognize_chord] never returns one of
    these three chord types. *)
Theorem extended_chords_never_recognized :
  (CHORD_TYPES !! [0; 4; 7; 10; 14] = Some "9th"
   ∧ CHORD_TYPES !! [0; 4; 7; 10; 14; 17] = Some "11th"
   ∧ CHORD_TYPES !! [0; 4; 7; 10; 14; 17; 21] = Some "13th")
  ∧ (∀ (pressed_notes : gset Z) root i,
       i ∈ intervals_of root pressed_notes → 0 ≤ i ≤ 11)
  ∧ (∀ (pressed_notes : gset Z) label root chord_type,
       recognize_chord pressed_notes = Ok (Some (label, root, chord_type)) →
       chord_type ∉ ["9th"; "11th"; "13th"]).
Proof.
  split_and!; try (vm_compute; reflexivity).
  - intros pressed_notes root i. apply intervals_of_range.
  - intros pressed_notes label pc chord_type Hrec Hty.
    destruct (decide (size pressed_notes < 3)%nat) as [Hlt | Hge].
    { apply recognize_chord_none in Hlt. congruence. }
    destruct (recognize_chord_spec pressed_notes)
      as (root & root_name & _ & _ & _ & _ & Heq); [lia|].
    rewrite Heq in Hrec. cbv zeta in Hrec.
    apply (f_equal chord_type_of) in Hrec.
    cbv beta iota delta [chord_type_of] in Hrec.
    destruct (CHORD_TYPES !! intervals_of root pressed_notes)
      as [entry|] eqn:Hentry; cbn [default] in Hrec;
      injection Hrec as <-.
    + apply (extended_chord_key _ _ Hentry) in Hty.
      apply intervals_of_range in Hty. lia.
    + rewrite !elem_of_cons, elem_of_nil in Hty.
      destruct_or!; done.
Qed.

Lemma extended_chords_never_recognized_witness :
  "Complex" ∉ ["9th"; "11th"; "13th"].
Proof.
  destruct extended_chords_never_recognized as (_ & _ & Hnever).
  apply (Hnever {[60; 64; 67; 70; 74]} "C Complex" 0 "Complex").
  vm_compute. reflexivity.
Defined.

(** C6: [recognize_chord] returns [None] exactly when fewer than three
    notes are held; with three or more it returns a label whose root is
    the pitch class of the lowest held note, and when the interval tuple
    is no key of [CHORD_TYPES] the chord type is Complex, the label being
    the root's name followed by Complex. *)
Theorem recognize_chord_threshold (pressed_notes : gset Z) :
  (recognize_chord pressed_notes = Ok None ↔ (size pressed_notes < 3)%nat)
  ∧ ((3 ≤ size pressed_notes)%nat →
     ∃ root root_name chord_type,
       root ∈ pressed_notes
       ∧ (∀ note, note ∈ pressed_notes → root ≤ note)
       ∧ note_name (root mod 12) = Some root_name
       ∧ recognize_chord pressed_notes
         = Ok (Some (root_name ++ " " ++ chord_type, root mod 12, chord_type))
       ∧ (CHORD_TYPES !! intervals_of root pressed_notes = None →
          chord_type = "Complex")).
Proof.
  split; [apply recognize_chord_none|].
  intros Hsize.
  destruct (recognize_chord_spec pressed_notes Hsize)
    as (root & root_name & _ & Hin & Hle & Hname & Heq).
  exists root, root_name,
    (default "Complex" (CHORD_TYPES !! intervals_of root pressed_notes)).
  split_and!; try done.
  by intros ->.
Qed.

Lemma recognize_chord_threshold_witness :
  ∃ root root_name chord_type,
    root ∈ ({[60; 61; 62]} : gset Z)
    ∧ (∀ note, note ∈ ({[60; 61; 62]} : gset Z) → root ≤ note)
    ∧ note_name (root mod 12) = Some root_name
    ∧ recognize_chord {[60; 61; 62]}
      = Ok (Some (root_name ++ " " ++ chord_type, root mod 12, chord_type))
    ∧ (CHORD_TYPES !! intervals_of root {[60; 61; 62]} = None →
       chord_type = "Complex").
Proof.
  apply (proj2 (recognize_chord_threshold {[60; 61; 62]})).
  vm_compute. lia.
Defined.

Example recognize_complex :
  recognize_chord {[60; 61; 62]} = Ok (Some ("C Complex", 0, "Complex")).
Proof. vm_compute. reflexivity. Qed.

(** C7, as the code has it: for the held notes 61, 64 and 68 the root is
    the pitch class 1, the interval tuple is (0,3,7), the chord type is
    Minor, and the label is the name of [NOTES] for that pitch class,
    C#/Db, followed by Minor. *)
Theorem recognize_61_64_68 :
  py_min (elements ({[61; 64; 68]} : gset Z)) = Some 61
  ∧ 61 mod 12 = 1
  ∧ intervals_of 61 {[61; 64; 68]} = [0; 3; 7]
  ∧ note_name 1 = Some "C#/Db"
  ∧ recognize_chord {[61; 64; 68]} = Ok (Some ("C#/Db Minor", 1, "Minor")).
Proof. split_and!; vm_compute; reflexivity. Qed.

(** C7, as the specification states it, fails: the label that
    [recognize_chord] returns for the held notes 61, 64 and 68 is not
    C# Minor. *)
Lemma recognize_61_64_68_label :
  recognize_chord {[61; 64; 68]} ≠ Ok (Some ("C# Minor", 1, "Minor")).
Proof. vm_compute. discriminate. Qed.

(** ** The MIDI branch of the main loop *)

Lemma note_sounds_Some (note : Z) (snd : sound) :
  note_sounds !! note = Some snd → 0 ≤ note < 128.
Proof.
  intros Hin%elem_of_list_to_map_2.
  apply list_elem_of_fmap in Hin as (n & [= -> _] & Hn).
  apply elem_of_seqZ in Hn. lia.
Qed.

Lemma note_sounds_total (note : Z) :
  0 ≤ note < 128 → note_sounds !! note = Some (SineSound note).
Proof.
  intros Hnote. apply elem_of_list_to_map_1.
  - rewrite <- list_fmap_compose. apply (bool_decide_unpack _).
    vm_compute. reflexivity.
  - apply (list_elem_of_fmap_2
             (λ midi_note, (midi_note, SineSound midi_note))).
    apply elem_of_seqZ. lia.
Qed.

Lemma note_sounds_None (note : Z) :
  ¬ (0 ≤ note ≤ 127) → note_sounds !! note = None.
Proof.
  intros Hout. apply not_elem_of_list_to_map_1.
  rewrite <- list_fmap_compose.
  intros (n & Heq & Hn)%list_elem_of_fmap. simpl in Heq. subst n.
  apply elem_of_seqZ in Hn. lia.
Qed.

(** The Note On branch, lines 240-250. *)
Lemma process_note_on (s : engine) (status_byte note velocity : Z)
    (name : string) :
  Z.land status_byte 0xF0 = 0x90 → velocity > 0 →
  note_name (note mod 12) = Some name →
  process_event (status_byte, note, velocity) s
  = let held := {[note]} ∪ pressed_midi_notes s in
    let names := {[name]} ∪ pressed_circle_notes s in
    let root := if decide (size held = 1%nat) then Some (note mod 12)
                else scale_root s in
    match active_sounds s !! note with
    | Some _ => (Ok (), Engine held names (active_sounds s) root)
    | None =>
        match note_sounds !! note with
        | Some snd =>
            (Ok (), Engine held names (<[note := snd]> (active_sounds s)) root)
        | None =>
            (Raise KeyError, Engine held names (active_sounds s) (scale_root s))
        end
    end.
Proof.
  intros Hstatus Hvelocity Hname. unfold note_name in Hname.
  destruct (MIDI_TO_CIRCLE !! (note mod 12)) as [index|] eqn:Hindex; [|done].
  cbn [mbind option_bind] in Hname.
  unfold process_event. rewrite decide_True by done.
  cbv [mbind M_bind gets modify lookup_or_raise mret M_ret raise
       set_pressed_midi_notes set_pressed_circle_notes set_active_sounds
       set_scale_root pressed_midi_notes pressed_circle_notes active_sounds
       scale_root].
  destruct s as [held names active root].
  rewrite Hindex, Hname.
  destruct (active !! note) as [snd|] eqn:Hactive.
  - rewrite decide_False by done. by case_decide.
  - rewrite decide_True by done.
    destruct (note_sounds !! note); [by case_decide | done].
Qed.

(** The Note Off branch, lines 251-261. *)
Lemma process_note_off (s : engine) (status_byte note velocity : Z)
    (name : string) :
  Z.land status_byte 0xF0 = 0x80
  ∨ (Z.land status_byte 0xF0 = 0x90 ∧ velocity = 0) →
  note_name (note mod 12) = Some name →
  process_event (status_byte, note, velocity) s
  = let held := pressed_midi_notes s ∖ {[note]} in
    (Ok (),
     Engine held (pressed_circle_notes s ∖ {[name]})
       (delete note (active_sounds s))
       (if decide (size held = 0%nat) then None else scale_root s)).
Proof.
  intros Hstatus Hname. unfold note_name in Hname.
  destruct (MIDI_TO_CIRCLE !! (note mod 12)) as [index|] eqn:Hindex; [|done].
  cbn [mbind option_bind] in Hname.
  unfold process_event. rewrite decide_False by lia.
  rewrite decide_True by done.
  cbv [mbind M_bind gets modify lookup_or_raise mret M_ret raise
       set_pressed_midi_notes set_pressed_circle_notes set_active_sounds
       set_scale_root pressed_midi_notes pressed_circle_notes active_sounds
       scale_root].
  destruct s as [held names active root].
  rewrite Hindex, Hname.
  destruct (decide (is_Some (active !! note))) as [Hin | Hnotin].
  - by case_decide.
  - apply eq_None_not_Some in Hnotin. rewrite (delete_id _ _ Hnotin).
    by case_decide.
Qed.

(** Any other event leaves the engine as it is. *)
Lemma process_other (s : engine) (status_byte note velocity : Z) :
  ¬ (Z.land status_byte 0xF0 = 0x90 ∧ velocity > 0) →
  ¬ (Z.land status_byte 0xF0 = 0x80
     ∨ (Z.land status_byte 0xF0 = 0x90 ∧ velocity = 0)) →
  process_event (status_byte, note, velocity) s = (Ok (), s).
Proof.
  intros Hon Hoff. unfold process_event.
  rewrite decide_False by done. by rewrite decide_False by done.
Qed.

Lemma add_note_nonempty (note : Z) (held : gset Z) : {[note]} ∪ held ≠ ∅.
Proof. set_solver. Qed.

Lemma add_held_note (note : Z) (held : gset Z) :
  note ∈ held → {[note]} ∪ held = held.
Proof.
  intros Hheld. apply set_eq. intros n.
  rewrite elem_of_union, elem_of_singleton.
  split; [by intros [-> | ?] | by right].
Qed.

Lemma discard_not_held (note : Z) (held : gset Z) :
  note ∉ held → held ∖ {[note]} = held.
Proof.
  intros Hnotheld. apply set_eq. intros n.
  rewrite elem_of_difference, elem_of_singleton.
  split; [by intros [? _] | intros Hn; split; [done | by intros ->]].
Qed.

Lemma process_event_inv (s s' : engine) (event : midi_event) :
  engine_inv s → process_event event s = (Ok (), s') → engine_inv s'.
Proof.
  intros (Hheld & Hactive & Hroot) Hstep.
  destruct event as [[status_byte note] velocity].
  destruct (note_name_total note) as [name Hname].
  destruct (decide (Z.land status_byte 0xF0 = 0x90 ∧ velocity > 0))
    as [[Hstatus Hvelocity] | Hon].
  - rewrite (process_note_on _ _ _ _ name) in Hstep by done.
    cbv zeta in Hstep.
    pose proof (add_note_nonempty note (pressed_midi_notes s)) as Hnonempty.
    destruct (active_sounds s !! note) as [snd|] eqn:Hnote.
    + injection Hstep as <-. split_and!; simpl; [| done | done].
      intros n [->%elem_of_singleton | Hn]%elem_of_union; [|by apply Hheld].
      apply Hactive. by rewrite Hnote.
    + destruct (note_sounds !! note) as [snd|] eqn:Hsound; [|done].
      apply note_sounds_Some in Hsound.
      injection Hstep as <-. split_and!; simpl; [| | done].
      * intros n [->%elem_of_singleton | Hn]%elem_of_union;
          [done | by apply Hheld].
      * intros n [<- | [_ Hn]]%lookup_insert_is_Some; [done|].
        by apply Hactive.
  - destruct (decide (Z.land status_byte 0xF0 = 0x80
                      ∨ (Z.land status_byte 0xF0 = 0x90 ∧ velocity = 0)))
      as [Hoff | Hoff].
    + rewrite (process_note_off _ _ _ _ name) in Hstep by done.
      cbv zeta in Hstep. injection Hstep as <-. split_and!; simpl.
      * intros n [Hn _]%elem_of_difference. by apply Hheld.
      * intros n [_ Hn]%lookup_delete_is_Some. by apply Hactive.
      * intros Hempty. rewrite decide_True; [done|].
        rewrite Hempty. apply size_empty.
    + rewrite process_other in Hstep by done. by injection Hstep as <-.
Qed.

Lemma reachable_inv (s : engine) : reachable s → engine_inv s.
Proof.
  induction 1 as [|s s' event _ IH Hstep].
  - split_and!; simpl; [| | done].
    + intros note Hnote. by apply elem_of_empty in Hnote.
    + intros note. rewrite lookup_empty. by intros [? ?].
  - by apply (process_event_inv s s' event).
Qed.

Lemma process_events_reachable (events : list midi_event) (s s' : engine) :
  reachable s → process_events events s = (Ok (), s') → reachable s'.
Proof.
  revert s. induction events as [|event events IH]; intros s Hs Hrun.
  - by injection Hrun as <-.
  - cbn [process_events] in Hrun. unfold mbind, M_bind in Hrun.
    destruct (process_event event s) as [[[]|e] s1] eqn:Hstep; [|done].
    apply (IH s1); [|done]. by apply (reachable_event s s1 event).
Qed.

(** C8: a Note On event with velocity 0 is processed as a Note Off event
    for the same note is: from every state, both end without an exception
    in the same state, the one where the note is discarded, and so in the
    same snapshot. *)
Theorem note_on_velocity_0_is_note_off (s : engine)
    (on_status off_status note velocity : Z) :
  Z.land on_status 0xF0 = 0x90 →
  Z.land off_status 0xF0 = 0x80 →
  process_event (on_status, note, 0) s
  = process_event (off_status, note, velocity) s
  ∧ ∃ s', process_event (on_status, note, 0) s = (Ok (), s')
      ∧ pressed_midi_notes s' = pressed_midi_notes s ∖ {[note]}
      ∧ scale_root s'
        = (if decide (size (pressed_midi_notes s ∖ {[note]}) = 0%nat)
           then None else scale_root s).
Proof.
  intros Hon Hoff.
  destruct (note_name_total note) as [name Hname].
  rewrite (process_note_off s on_status note 0 name) by auto.
  rewrite (process_note_off s off_status note velocity name) by auto.
  split; [done|]. by eexists.
Qed.

Lemma note_on_velocity_0_is_note_off_witness :
  process_event (0x91, 64, 0) initial = process_event (0x80, 64, 90) initial
  ∧ ∃ s', process_event (0x91, 64, 0) initial = (Ok (), s')
      ∧ pressed_midi_notes s' = pressed_midi_notes initial ∖ {[64]}
      ∧ scale_root s'
        = (if decide (size (pressed_midi_notes initial ∖ {[64]}) = 0%nat)
           then None else scale_root initial).
Proof.
  apply (note_on_velocity_0_is_note_off initial 0x91 0x80 64 90);
    reflexivity.
Defined.

(** X22: a Note On event for a note that is held already leaves the held
    set as it is, and sets the scale root to the note's pitch class when
    the note is the only one held. *)
Lemma note_on_held_note (s : engine) (status_byte note velocity : Z) :
  reachable s →
  Z.land status_byte 0xF0 = 0x90 → velocity > 0 →
  note ∈ pressed_midi_notes s →
  ∃ s', process_event (status_byte, note, velocity) s = (Ok (), s')
    ∧ pressed_midi_notes s' = pressed_midi_notes s
    ∧ scale_root s'
      = (if decide (size (pressed_midi_notes s) = 1%nat)
         then Some (note mod 12) else scale_root s).
Proof.
  intros Hs Hstatus Hvelocity Hheld.
  destruct (note_name_total note) as [name Hname].
  rewrite (process_note_on s status_byte note velocity name) by done.
  cbv zeta.
  rewrite (add_held_note note (pressed_midi_notes s)) by done.
  destruct (active_sounds s !! note) as [snd|] eqn:Hnote; [by eexists|].
  destruct (note_sounds !! note) as [snd|] eqn:Hsound; [by eexists|].
  apply reachable_inv in Hs as (Hrange & _ & _).
  apply Hrange, note_sounds_total in Hheld. congruence.
Qed.

(** C2: the code does not keep the scale root when the only held note is
    pressed again.  After Note On 60, Note On 62 and Note Off 60 the held
    set is {62} and the scale root is the pitch class of 60; a second
    Note On for 62 leaves the held set as it is and overwrites the scale
    root with the pitch class of 62. *)
Theorem repress_overwrites_scale_root :
  let s := Engine {[62]} {["D"]} {[62 := SineSound 62]} (Some (60 mod 12)) in
  let s' := Engine {[62]} {["D"]} {[62 := SineSound 62]} (Some (62 mod 12)) in
  process_events [(0x90, 60, 100); (0x90, 62, 100); (0x80, 60, 0)] initial
  = (Ok (), s)
  ∧ reachable s
  ∧ 62 ∈ pressed_midi_notes s
  ∧ process_event (0x90, 62, 100) s = (Ok (), s')
  ∧ pressed_midi_notes s' = pressed_midi_notes s
  ∧ scale_root s' ≠ scale_root s.
Proof.
  assert (Hrun :
    process_events [(0x90, 60, 100); (0x90, 62, 100); (0x80, 60, 0)] initial
    = (Ok (), Engine {[62]} {["D"]} {[62 := SineSound 62]} (Some (60 mod 12))))
    by (vm_compute; reflexivity).
  cbv zeta. split_and!.
  - exact Hrun.
  - exact (process_events_reachable _ _ _ reachable_initial Hrun).
  - cbn [pressed_midi_notes]. by apply elem_of_singleton.
  - vm_compute. reflexivity.
  - reflexivity.
  - vm_compute. discriminate.
Qed.

(** C5, as the code has it: the note number is not checked.  From every
    state of the loop and for every note outside 0..127, a Note Off event
    (status 0x80, or 0x90 with velocity 0) is processed without an
    exception and leaves the held set, the active sounds, the scale root
    and the snapshot as they are, while the name of the note's pitch
    class is discarded from the pressed names; a Note On event with a
    velocity above 0 adds the note to the held set and its name to the
    pressed names and then raises [KeyError] at [note_sounds[note]], the
    active sounds and the scale root being as before. *)
Theorem out_of_range_note_not_checked (s : engine)
    (status_byte note velocity : Z) :
  reachable s →
  ¬ (0 ≤ note ≤ 127) →
  ∃ name,
    note_name (note mod 12) = Some name
    ∧ (Z.land status_byte 0xF0 = 0x80
       ∨ (Z.land status_byte 0xF0 = 0x90 ∧ velocity = 0) →
       ∃ s', process_event (status_byte, note, velocity) s = (Ok (), s')
         ∧ pressed_midi_notes s' = pressed_midi_notes s
         ∧ pressed_circle_notes s' = pressed_circle_notes s ∖ {[name]}
         ∧ active_sounds s' = active_sounds s
         ∧ scale_root s' = scale_root s
         ∧ ∀ scale_type show_scale,
             snapshot scale_type show_scale s'
             = snapshot scale_type show_scale s)
    ∧ (Z.land status_byte 0xF0 = 0x90 ∧ velocity > 0 →
       ∃ s', process_event (status_byte, note, velocity) s
             = (Raise KeyError, s')
         ∧ pressed_midi_notes s' = {[note]} ∪ pressed_midi_notes s
         ∧ pressed_midi_notes s' ≠ pressed_midi_notes s
         ∧ pressed_circle_notes s' = {[name]} ∪ pressed_circle_notes s
         ∧ active_sounds s' = active_sounds s
         ∧ scale_root s' = scale_root s).
Proof.
  intros Hs Hout.
  destruct (reachable_inv s Hs) as (Hheld & Hactive & Hroot).
  destruct (note_name_total note) as [name Hname].
  assert (Hnotheld : note ∉ pressed_midi_notes s).
  { intros Hin%Hheld. lia. }
  assert (Hsilent : active_sounds s !! note = None).
  { apply eq_None_not_Some. intros Hin%Hactive. lia. }
  exists name. split; [done|]. split.
  - intros Hoff.
    rewrite (process_note_off s status_byte note velocity name) by done.
    cbv zeta. rewrite (discard_not_held _ _ Hnotheld), (delete_id _ _ Hsilent).
    assert (Hkeep :
      (if decide (size (pressed_midi_notes s) = 0%nat)
       then None else scale_root s) = scale_root s).
    { case_decide as Hsize; [|done].
      apply size_empty_inv, leibniz_equiv in Hsize. by rewrite Hroot. }
    rewrite Hkeep. eexists. split; [reflexivity|]. by split_and!.
  - intros [Hstatus Hvelocity].
    rewrite (process_note_on s status_byte note velocity name) by done.
    cbv zeta. rewrite Hsilent, (note_sounds_None note Hout).
    eexists. split; [reflexivity|]. split_and!; try done.
    simpl. intros Heq. apply Hnotheld. rewrite <- Heq.
    apply elem_of_union_l. by apply elem_of_singleton.
Qed.

Lemma out_of_range_note_not_checked_witness :
  (∃ name,
     note_name (200 mod 12) = Some name
     ∧ ∃ s', process_event (0x80, 200, 0)
               (Engine {[68]} {["G#/Ab"]} {[68 := SineSound 68]} (Some 8))
             = (Ok (), s')
         ∧ pressed_midi_notes s'
           = pressed_midi_notes
               (Engine {[68]} {["G#/Ab"]} {[68 := SineSound 68]} (Some 8))
         ∧ pressed_circle_notes s'
           = pressed_circle_notes
               (Engine {[68]} {["G#/Ab"]} {[68 := SineSound 68]} (Some 8))
             ∖ {[name]}
         ∧ active_sounds s'
           = active_sounds
               (Engine {[68]} {["G#/Ab"]} {[68 := SineSound 68]} (Some 8))
         ∧ scale_root s'
           = scale_root
               (Engine {[68]} {["G#/Ab"]} {[68 := SineSound 68]} (Some 8))
         ∧ ∀ scale_type show_scale,
             snapshot scale_type show_scale s'
             = snapshot scale_type show_scale
                 (Engine {[68]} {["G#/Ab"]} {[68 := SineSound 68]} (Some 8)))
  ∧ (∃ name,
       note_name (200 mod 12) = Some name
       ∧ ∃ s', process_event (0x90, 200, 64)
                 (Engine {[60; 64; 67]} {["C"; "E"; "G"]}
                    {[60 := SineSound 60; 64 := SineSound 64;
                      67 := SineSound 67]} (Some 0))
               = (Raise KeyError, s')
           ∧ pressed_midi_notes s'
             = {[200]}
               ∪ pressed_midi_notes
                   (Engine {[60; 64; 67]} {["C"; "E"; "G"]}
                      {[60 := SineSound 60; 64 := SineSound 64;
                        67 := SineSound 67]} (Some 0))
           ∧ pressed_midi_notes s'
             ≠ pressed_midi_notes
                 (Engine {[60; 64; 67]} {["C"; "E"; "G"]}
                    {[60 := SineSound 60; 64 := SineSound 64;
                      67 := SineSound 67]} (Some 0))
           ∧ pressed_circle_notes s'
             = {[name]}
               ∪ pressed_circle_notes
                   (Engine {[60; 64; 67]} {["C"; "E"; "G"]}
                      {[60 := SineSound 60; 64 := SineSound 64;
                        67 := SineSound 67]} (Some 0))
           ∧ active_sounds s'
             = active_sounds
                 (Engine {[60; 64; 67]} {["C"; "E"; "G"]}
                    {[60 := SineSound 60; 64 := SineSound 64;
                      67 := SineSound 67]} (Some 0))
           ∧ scale_root s'
             = scale_root
                 (Engine {[60; 64; 67]} {["C"; "E"; "G"]}
                    {[60 := SineSound 60; 64 := SineSound 64;
                      67 := SineSound 67]} (Some 0))).
Proof.
  split.
  - destruct (out_of_range_note_not_checked
                (Engine {[68]} {["G#/Ab"]} {[68 := SineSound 68]} (Some 8))
                0x80 200 0) as (name & Hname & Hoff & _).
    + apply (reachable_event initial _ (0x90, 68, 100) reachable_initial).
      vm_compute. reflexivity.
    + lia.
    + exists name. split; [exact Hname|]. apply Hoff. left. reflexivity.
  - destruct (out_of_range_note_not_checked
                (Engine {[60; 64; 67]} {["C"; "E"; "G"]}
                   {[60 := SineSound 60; 64 := SineSound 64;
                     67 := SineSound 67]} (Some 0))
                0x90 200 64) as (name & Hname & _ & Hon).
    + apply (process_events_reachable
               [(0x90, 60, 100); (0x90, 64, 100); (0x90, 67, 100)]
               initial _ reachable_initial).
      vm_compute. reflexivity.
    + lia.
    + exists name. split; [exact Hname|]. apply Hon. split; [reflexivity | lia].
Defined.

(** C5, as the specification states it, fails: the Note Off event for the
    note 200 is processed without an exception, and while 68 is held it
    removes the name of 68 from the pressed names; the Note On event for
    the note 200 raises only after 200 is in the held set. *)
Lemma out_of_range_note_accepted :
  process_event (0x80, 200, 0) initial = (Ok (), initial)
  ∧ process_event (0x90, 68, 100) initial
    = (Ok (), Engine {[68]} {["G#/Ab"]} {[68 := SineSound 68]} (Some 8))
  ∧ process_event (0x80, 200, 0)
      (Engine {[68]} {["G#/Ab"]} {[68 := SineSound 68]} (Some 8))
    = (Ok (), Engine {[68]} ∅ {[68 := SineSound 68]} (Some 8))
  ∧ process_event (0x90, 200, 64) initial
    = (Raise KeyError, Engine {[200]} {["G#/Ab"]} ∅ None).
Proof. split_and!; vm_compute; reflexivity. Qed.

(** ** More on the MIDI branch: what every state of the loop satisfies *)

Lemma size_one_or_held (note : Z) (held : gset Z) :
  size ({[note]} ∪ held) ≠ 1%nat → held ≠ ∅.
Proof.
  intros Hsize ->. apply Hsize.
  rewrite (right_id_L ∅ (∪)). apply size_singleton.
Qed.

Lemma process_event_coherent (s s' : engine) (event : midi_event) :
  engine_coherent s → process_event event s = (Ok (), s') →
  engine_coherent s'.
Proof.
  intros (Hdom & Hsnd & Hroot & Hrange & Hnames) Hstep.
  destruct event as [[status_byte note] velocity].
  destruct (note_name_total note) as [name Hname].
  destruct (decide (Z.land status_byte 0xF0 = 0x90 ∧ velocity > 0))
    as [[Hstatus Hvelocity] | Hon].
  - rewrite (process_note_on _ _ _ _ name) in Hstep by done.
    cbv zeta in Hstep.
    assert (Hroot' :
      (if decide (size ({[note]} ∪ pressed_midi_notes s) = 1%nat)
       then Some (note mod 12) else scale_root s) = None
      ↔ {[note]} ∪ pressed_midi_notes s = ∅).
    { split; [|by intros ?%add_note_nonempty].
      case_decide as Hsize; [done|].
      apply size_one_or_held in Hsize. by intros ?%Hroot. }
    assert (Hrange' : ∀ root,
      (if decide (size ({[note]} ∪ pressed_midi_notes s) = 1%nat)
       then Some (note mod 12) else scale_root s) = Some root →
      0 ≤ root < 12).
    { intros root. case_decide; [|apply Hrange].
      intros [= <-]. apply mod12_bound. }
    assert (Hnames' : ∀ name',
      name' ∈ {[name]} ∪ pressed_circle_notes s →
      ∃ n, n ∈ {[note]} ∪ pressed_midi_notes s
           ∧ note_name (n mod 12) = Some name').
    { intros name' [->%elem_of_singleton | Hin]%elem_of_union.
      - exists note. split; [|done].
        apply elem_of_union_l. by apply elem_of_singleton.
      - destruct (Hnames _ Hin) as (n & Hn & Hnn).
        exists n. split; [by apply elem_of_union_r | done]. }
    destruct (active_sounds s !! note) as [snd|] eqn:Hnote.
    + injection Hstep as <-. split_and!; simpl; try done.
      rewrite add_held_note; [done|].
      rewrite <- Hdom. apply elem_of_dom. by rewrite Hnote.
    + destruct (note_sounds !! note) as [snd|] eqn:Hsound; [|done].
      injection Hstep as <-. split_and!; simpl; try done.
      * by rewrite dom_insert_L, Hdom.
      * intros n snd' [[<- <-] | [_ Hn]]%lookup_insert_Some;
          [|by apply Hsnd].
        pose proof (note_sounds_Some _ _ Hsound) as Hin.
        apply note_sounds_total in Hin. congruence.
  - destruct (decide (Z.land status_byte 0xF0 = 0x80
                      ∨ (Z.land status_byte 0xF0 = 0x90 ∧ velocity = 0)))
      as [Hoff | Hoff].
    + rewrite (process_note_off _ _ _ _ name) in Hstep by done.
      cbv zeta in Hstep. injection Hstep as <-. split_and!; simpl.
      * by rewrite dom_delete_L, Hdom.
      * intros n snd [_ Hn]%lookup_delete_Some. by apply Hsnd.
      * case_decide as Hsize.
        -- apply size_empty_inv, leibniz_equiv in Hsize. by rewrite Hsize.
        -- assert (Hne : pressed_midi_notes s ∖ {[note]} ≠ ∅).
           { intros Heq. apply Hsize. rewrite Heq. apply size_empty. }
           split; [|done]. intros Hnone%Hroot.
           destruct Hne. rewrite Hnone. apply set_eq. intros n.
           rewrite elem_of_difference. split; [|by intros ?%elem_of_empty].
           by intros [?%elem_of_empty _].
      * intros root. case_decide; [done | apply Hrange].
      * intros name' [Hin Hne]%elem_of_difference.
        destruct (Hnames _ Hin) as (n & Hn & Hnn).
        exists n. split; [|done].
        apply elem_of_difference. split; [done|].
        intros ->%elem_of_singleton. apply Hne.
        apply elem_of_singleton. congruence.
    + rewrite process_other in Hstep by done. injection Hstep as <-.
      by split_and!.
Qed.

Lemma reachable_coherent (s : engine) : reachable s → engine_coherent s.
Proof.
  induction 1 as [|s s' event _ IH Hstep].
  - split_and!; simpl;
      first [ done | apply dom_empty_L
            | intros name Hname; by apply elem_of_empty in Hname ].
  - by apply (process_event_coherent s s' event).
Qed.

(** X1: in every state of the loop there is a scale root exactly while a
    note is held, and the scale root is a pitch class of 0..11 that has a
    name in [NOTES], so that line 176 never raises. *)
Theorem scale_root_iff_note_held (s : engine) :
  reachable s →
  (scale_root s = None ↔ pressed_midi_notes s = ∅)
  ∧ (∀ root, scale_root s = Some root →
       0 ≤ root ≤ 11 ∧ is_Some (note_name root)).
Proof.
  intros (_ & _ & Hroot & Hrange & _)%reachable_coherent.
  split; [done|]. intros root Hsome%Hrange. split; [lia|].
  rewrite <- (Z.mod_small root 12) by lia. apply note_name_total.
Qed.

Lemma scale_root_iff_note_held_witness :
  (scale_root (Engine {[61]} {["C#/Db"]} {[61 := SineSound 61]} (Some 1))
   = None
   ↔ pressed_midi_notes
       (Engine {[61]} {["C#/Db"]} {[61 := SineSound 61]} (Some 1)) = ∅)
  ∧ (∀ root,
       scale_root (Engine {[61]} {["C#/Db"]} {[61 := SineSound 61]} (Some 1))
       = Some root →
       0 ≤ root ≤ 11 ∧ is_Some (note_name root)).
Proof.
  apply (scale_root_iff_note_held
           (Engine {[61]} {["C#/Db"]} {[61 := SineSound 61]} (Some 1))).
  apply (reachable_event initial _ (0x90, 61, 100) reachable_initial).
  vm_compute. reflexivity.
Defined.

(** X2: in every state of the loop the notes with an active sound are
    exactly the held notes, each with its own sound of [note_sounds], and
    every held note is in 0..127. *)
Theorem active_sounds_are_held_notes (s : engine) :
  reachable s →
  dom (active_sounds s) = pressed_midi_notes s
  ∧ (∀ note, note ∈ pressed_midi_notes s →
       0 ≤ note ≤ 127
       ∧ active_sounds s !! note = Some (SineSound note)
       ∧ note_sounds !! note = Some (SineSound note)).
Proof.
  intros Hs.
  destruct (reachable_coherent s Hs) as (Hdom & Hsnd & _).
  destruct (reachable_inv s Hs) as (Hheld & _).
  split; [done|]. intros note Hnote.
  pose proof (Hheld _ Hnote) as Hrange.
  split; [lia|]. split; [|by apply note_sounds_total].
  rewrite <- Hdom in Hnote. apply elem_of_dom in Hnote as [snd Hlook].
  by rewrite Hlook, (Hsnd _ _ Hlook).
Qed.

Lemma active_sounds_are_held_notes_witness :
  dom (active_sounds
         (Engine {[61]} {["C#/Db"]} {[61 := SineSound 61]} (Some 1)))
  = pressed_midi_notes
      (Engine {[61]} {["C#/Db"]} {[61 := SineSound 61]} (Some 1))
  ∧ (∀ note,
       note ∈ pressed_midi_notes
                (Engine {[61]} {["C#/Db"]} {[61 := SineSound 61]} (Some 1)) →
       0 ≤ note ≤ 127
       ∧ active_sounds
           (Engine {[61]} {["C#/Db"]} {[61 := SineSound 61]} (Some 1))
         !! note = Some (SineSound note)
       ∧ note_sounds !! note = Some (SineSound note)).
Proof.
  apply (active_sounds_are_held_notes
           (Engine {[61]} {["C#/Db"]} {[61 := SineSound 61]} (Some 1))).
  apply (reachable_event initial _ (0x90, 61, 100) reachable_initial).
  vm_compute. reflexivity.
Defined.

(** X3: in every state of the loop each pressed name is the name of a
    held note.  The converse fails: after Note On 60, Note On 72 and Note
    Off 72 the note 60 is held and no name is pressed, the name being
    discarded with the release of 72. *)
Theorem pressed_names_of_held_notes :
  (∀ s name, reachable s → name ∈ pressed_circle_notes s →
     ∃ note, note ∈ pressed_midi_notes s
             ∧ note_name (note mod 12) = Some name)
  ∧ (∃ s, reachable s ∧ 60 ∈ pressed_midi_notes s
          ∧ note_name (60 mod 12) = Some "C"
          ∧ pressed_circle_notes s = ∅).
Proof.
  split.
  - intros s name (_ & _ & _ & _ & Hnames)%reachable_coherent. apply Hnames.
  - assert (Hrun :
      process_events [(0x90, 60, 100); (0x90, 72, 100); (0x80, 72, 0)] initial
      = (Ok (), Engine {[60]} ∅ {[60 := SineSound 60]} (Some 0)))
      by (vm_compute; reflexivity).
    eexists. split_and!.
    + exact (process_events_reachable _ _ _ reachable_initial Hrun).
    + cbn [pressed_midi_notes]. by apply elem_of_singleton.
    + vm_compute. reflexivity.
    + reflexivity.
Qed.

(** X4: a state of the loop in which no note is held is the initial
    state: no pressed name, no active sound and no scale root are left. *)
Theorem all_released_is_initial (s : engine) :
  reachable s → pressed_midi_notes s = ∅ → s = initial.
Proof.
  intros (Hdom & _ & Hroot & _ & Hnames)%reachable_coherent Hempty.
  destruct s as [held names active root]. simpl in *.
  rewrite Hempty in Hdom. apply dom_empty_inv_L in Hdom.
  assert (Hroot' : root = None) by by apply Hroot.
  assert (Hnone : names = ∅).
  { apply set_eq. intros name. split; [|by intros ?%elem_of_empty].
    intros (note & Hnote & _)%Hnames.
    rewrite Hempty in Hnote. by apply elem_of_empty in Hnote. }
  by rewrite Hempty, Hdom, Hroot', Hnone.
Qed.

Lemma all_released_is_initial_witness :
  Engine ∅ ∅ ∅ None = initial.
Proof.
  apply (all_released_is_initial (Engine ∅ ∅ ∅ None)).
  - assert (Hrun :
      process_events [(0x90, 60, 100); (0x90, 64, 100);
                      (0x80, 60, 0); (0x90, 64, 0)] initial
      = (Ok (), Engine ∅ ∅ ∅ None)) by (vm_compute; reflexivity).
    exact (process_events_reachable _ _ _ reachable_initial Hrun).
  - reflexivity.
Defined.

Lemma pressed_names_of_held_notes_witness :
  ∃ note,
    note ∈ pressed_midi_notes
             (Engine {[61]} {["C#/Db"]} {[61 := SineSound 61]} (Some 1))
    ∧ note_name (note mod 12) = Some "C#/Db".
Proof.
  apply (proj1 pressed_names_of_held_notes
           (Engine {[61]} {["C#/Db"]} {[61 := SineSound 61]} (Some 1))).
  - apply (reachable_event initial _ (0x90, 61, 100) reachable_initial).
    vm_compute. reflexivity.
  - cbn [pressed_circle_notes]. by apply elem_of_singleton.
Defined.

(** X5: in a state of the loop an event raises exactly when it is a Note
    On event with a velocity above 0 for a note outside 0..127; every other
    event, in particular every event for a note of 0..127, is processed to
    the end. *)
Theorem process_event_raises_iff (s : engine)
    (status_byte note velocity : Z) :
  reachable s →
  ((∃ e s', process_event (status_byte, note, velocity) s = (Raise e, s'))
   ↔ Z.land status_byte 0xF0 = 0x90 ∧ velocity > 0 ∧ ¬ (0 ≤ note ≤ 127))
  ∧ ((∃ s', process_event (status_byte, note, velocity) s = (Ok (), s'))
     ↔ ¬ (Z.land status_byte 0xF0 = 0x90 ∧ velocity > 0
          ∧ ¬ (0 ≤ note ≤ 127))).
Proof.
  intros Hs.
  destruct (reachable_inv s Hs) as (Hheld & Hactive & _).
  destruct (note_name_total note) as [name Hname].
  destruct (decide (Z.land status_byte 0xF0 = 0x90 ∧ velocity > 0))
    as [[Hstatus Hvelocity] | Hon].
  - rewrite (process_note_on s status_byte note velocity name) by done.
    cbv zeta.
    destruct (active_sounds s !! note) as [snd|] eqn:Hnote.
    + assert (0 ≤ note < 128) by (apply Hactive; by rewrite Hnote).
      split; split.
      * by intros (e & s' & [=]).
      * intros (_ & _ & Hout). lia.
      * intros _ (_ & _ & Hout). lia.
      * intros _. by eexists.
    + destruct (decide (0 ≤ note ≤ 127)) as [Hin | Hout].
      * rewrite note_sounds_total by lia. split; split.
        -- by intros (e & s' & [=]).
        -- by intros (_ & _ & Hout).
        -- by intros _ (_ & _ & Hout).
        -- intros _. by eexists.
      * rewrite (note_sounds_None note Hout). split; split.
        -- done.
        -- intros _. by do 2 eexists.
        -- by intros (s' & [=]).
        -- intros Hnot. by destruct Hnot.
  - assert (Hok : ∃ s',
      process_event (status_byte, note, velocity) s = (Ok (), s')).
    { destruct (decide (Z.land status_byte 0xF0 = 0x80
                        ∨ (Z.land status_byte 0xF0 = 0x90 ∧ velocity = 0)))
        as [Hoff | Hoff].
      - rewrite (process_note_off s status_byte note velocity name) by done.
        by eexists.
      - rewrite process_other by done. by eexists. }
    destruct Hok as [s' Hok]. rewrite Hok. split; split.
    + by intros (e & s'' & [=]).
    + intros (? & ? & _). by destruct Hon.
    + intros _ (? & ? & _). by destruct Hon.
    + intros _. by eexists.
Qed.

Lemma process_event_raises_iff_witness :
  ((∃ e s', process_event (0x90, 128, 1) initial = (Raise e, s'))
   ↔ Z.land 0x90 0xF0 = 0x90 ∧ 1 > 0 ∧ ¬ (0 ≤ 128 ≤ 127))
  ∧ ((∃ s', process_event (0x90, 128, 1) initial = (Ok (), s'))
     ↔ ¬ (Z.land 0x90 0xF0 = 0x90 ∧ 1 > 0 ∧ ¬ (0 ≤ 128 ≤ 127))).
Proof.
  apply (process_event_raises_iff initial 0x90 128 1), reachable_initial.
Defined.

(** X6: a second Note Off event for the same note changes nothing: from
    every state, two of them in a row end in the state that one of them
    ends in. *)
Theorem note_off_idempotent (s : engine) (status_byte note velocity : Z) :
  Z.land status_byte 0xF0 = 0x80
  ∨ (Z.land status_byte 0xF0 = 0x90 ∧ velocity = 0) →
  process_events [(status_byte, note, velocity);
                  (status_byte, note, velocity)] s
  = process_event (status_byte, note, velocity) s.
Proof.
  intros Hoff.
  destruct (note_name_total note) as [name Hname].
  cbn [process_events]. unfold mbind at 1 2, M_bind at 1 2.
  rewrite (process_note_off s status_byte note velocity name) by done.
  cbv beta iota zeta.
  rewrite (process_note_off _ status_byte note velocity name) by done.
  cbv beta iota zeta.
  cbn [pressed_midi_notes pressed_circle_notes active_sounds
       scale_root mret M_ret].
  assert (Hheld : ∀ X : gset Z, X ∖ {[note]} ∖ {[note]} = X ∖ {[note]}).
  { intros X. apply discard_not_held.
    intros [_ Hn]%elem_of_difference. by apply Hn, elem_of_singleton. }
  assert (Hnames : ∀ X : gset string,
    X ∖ {[name]} ∖ {[name]} = X ∖ {[name]}).
  { intros X. apply set_eq. intros n. rewrite !elem_of_difference.
    split; [by intros [? _] | by intros [? ?]]. }
  rewrite Hheld, Hnames, delete_delete_eq.
  by case_decide.
Qed.

Lemma note_off_idempotent_witness :
  process_events [(0x80, 60, 0); (0x80, 60, 0)]
    (Engine {[60]} {["C"]} {[60 := SineSound 60]} (Some 0))
  = process_event (0x80, 60, 0)
      (Engine {[60]} {["C"]} {[60 := SineSound 60]} (Some 0)).
Proof.
  apply (note_off_idempotent _ 0x80 60 0). by left.
Defined.

Lemma size_add_new_note (note : Z) (held : gset Z) :
  note ∉ held → size ({[note]} ∪ held) = S (size held).
Proof.
  intros Hnew. rewrite size_union, size_singleton; [done|].
  intros n ->%elem_of_singleton. done.
Qed.

Lemma discard_added (note : Z) (held : gset Z) :
  note ∉ held → ({[note]} ∪ held) ∖ {[note]} = held.
Proof.
  intros Hnew. apply set_eq. intros n.
  rewrite elem_of_difference, elem_of_union, elem_of_singleton.
  split; [by intros [[-> | ?] ?] | intros Hn].
  split; [by right | by intros ->].
Qed.

Lemma discard_added_name (name : string) (names : gset string) :
  name ∉ names → ({[name]} ∪ names) ∖ {[name]} = names.
Proof.
  intros Hnew. apply set_eq. intros n.
  rewrite elem_of_difference, elem_of_union, elem_of_singleton.
  split; [by intros [[-> | ?] ?] | intros Hn].
  split; [by right | by intros ->].
Qed.

(** The Note On branch for a note of 0..127 that is not held. *)
Lemma process_note_on_new (s : engine) (status_byte note velocity : Z)
    (name : string) :
  reachable s →
  Z.land status_byte 0xF0 = 0x90 → velocity > 0 →
  0 ≤ note ≤ 127 → note ∉ pressed_midi_notes s →
  note_name (note mod 12) = Some name →
  process_event (status_byte, note, velocity) s
  = (Ok (),
     Engine ({[note]} ∪ pressed_midi_notes s)
       ({[name]} ∪ pressed_circle_notes s)
       (<[note := SineSound note]> (active_sounds s))
       (if decide (pressed_midi_notes s = ∅) then Some (note mod 12)
        else scale_root s)).
Proof.
  intros Hs Hstatus Hvelocity Hrange Hnew Hname.
  destruct (reachable_coherent s Hs) as (Hdom & _).
  rewrite (process_note_on s status_byte note velocity name) by done.
  cbv zeta.
  assert (Hsilent : active_sounds s !! note = None).
  { apply not_elem_of_dom. by rewrite Hdom. }
  rewrite Hsilent, note_sounds_total by lia.
  rewrite (size_add_new_note _ _ Hnew).
  do 2 f_equal. case_decide as Hsize; case_decide as Hempty; try done.
  - injection Hsize as Hsize. by apply size_empty_inv, leibniz_equiv in Hsize.
  - destruct Hsize. by rewrite Hempty, size_empty.
Qed.

(** X7: pressing and releasing a note is a round trip.  From a state of
    the loop, a Note On event for a note of 0..127 that is not held, whose
    name is not pressed either, followed by a Note Off event for it, ends
    in the state it started from. *)
Theorem note_on_off_round_trip (s : engine)
    (on_status off_status note v v' : Z) (name : string) :
  reachable s →
  Z.land on_status 0xF0 = 0x90 → v > 0 →
  Z.land off_status 0xF0 = 0x80
  ∨ (Z.land off_status 0xF0 = 0x90 ∧ v' = 0) →
  0 ≤ note ≤ 127 → note ∉ pressed_midi_notes s →
  note_name (note mod 12) = Some name → name ∉ pressed_circle_notes s →
  process_events [(on_status, note, v); (off_status, note, v')] s
  = (Ok (), s).
Proof.
  intros Hs Hon Hv Hoff Hrange Hnew Hname Hnewname.
  destruct (reachable_coherent s Hs) as (Hdom & _ & Hroot & _).
  cbn [process_events]. unfold mbind at 1 2, M_bind at 1 2.
  rewrite (process_note_on_new s on_status note v name) by done.
  cbv beta iota zeta.
  rewrite (process_note_off _ off_status note v' name) by done.
  cbv beta iota zeta.
  cbn [pressed_midi_notes pressed_circle_notes active_sounds
       scale_root mret M_ret].
  rewrite (discard_added _ _ Hnew), (discard_added_name _ _ Hnewname).
  rewrite delete_insert_eq, delete_id
    by (apply not_elem_of_dom; by rewrite Hdom).
  destruct s as [held names active root]. simpl in *.
  do 2 f_equal.
  case_decide as Hsize.
  - apply size_empty_inv, leibniz_equiv in Hsize. symmetry. by apply Hroot.
  - rewrite decide_False; [done|].
    intros Hempty. apply Hsize. by rewrite Hempty, size_empty.
Qed.

Lemma note_on_off_round_trip_witness :
  process_events [(0x90, 64, 100); (0x80, 64, 0)]
    (Engine {[60]} {["C"]} {[60 := SineSound 60]} (Some 0))
  = (Ok (), Engine {[60]} {["C"]} {[60 := SineSound 60]} (Some 0)).
Proof.
  apply (note_on_off_round_trip _ 0x90 0x80 64 100 0 "E").
  - apply (reachable_event initial _ (0x90, 60, 100) reachable_initial).
    vm_compute. reflexivity.
  - reflexivity.
  - lia.
  - by left.
  - lia.
  - cbn [pressed_midi_notes]. intros Hin%elem_of_singleton. lia.
  - vm_compute. reflexivity.
  - cbn [pressed_circle_notes]. intros Hin%elem_of_singleton. discriminate.
Defined.

(** X8: a Note On event for a note of 0..127 that is not held adds it to
    the held set, and the scale root becomes the pitch class of the note
    when no note was held and stays as it is otherwise: the first note of
    a chord sets the scale root, the notes added to it do not. *)
Theorem note_on_new_note_scale_root (s : engine)
    (status_byte note velocity : Z) :
  reachable s →
  Z.land status_byte 0xF0 = 0x90 → velocity > 0 →
  0 ≤ note ≤ 127 → note ∉ pressed_midi_notes s →
  ∃ s', process_event (status_byte, note, velocity) s = (Ok (), s')
    ∧ pressed_midi_notes s' = {[note]} ∪ pressed_midi_notes s
    ∧ scale_root s'
      = (if decide (pressed_midi_notes s = ∅) then Some (note mod 12)
         else scale_root s).
Proof.
  intros Hs Hstatus Hvelocity Hrange Hnew.
  destruct (note_name_total note) as [name Hname].
  rewrite (process_note_on_new s status_byte note velocity name) by done.
  by eexists.
Qed.

Lemma note_on_new_note_scale_root_witness :
  ∃ s', process_event (0x90, 64, 100)
          (Engine {[60]} {["C"]} {[60 := SineSound 60]} (Some 0))
        = (Ok (), s')
    ∧ pressed_midi_notes s'
      = {[64]} ∪ pressed_midi_notes
                   (Engine {[60]} {["C"]} {[60 := SineSound 60]} (Some 0))
    ∧ scale_root s'
      = (if decide
              (pressed_midi_notes
                 (Engine {[60]} {["C"]} {[60 := SineSound 60]} (Some 0)) = ∅)
         then Some (64 mod 12)
         else scale_root
                (Engine {[60]} {["C"]} {[60 := SineSound 60]} (Some 0))).
Proof.
  apply (note_on_new_note_scale_root
           (Engine {[60]} {["C"]} {[60 := SineSound 60]} (Some 0))
           0x90 64 100).
  - apply (reachable_event initial _ (0x90, 60, 100) reachable_initial).
    vm_compute. reflexivity.
  - reflexivity.
  - lia.
  - lia.
  - cbn [pressed_midi_notes]. intros Hin%elem_of_singleton. lia.
Defined.

(** ** More on [recognize_chord]: transposition and the shapes *)

Lemma py_min_iff (l : list Z) (m : Z) :
  py_min l = Some m ↔ m ∈ l ∧ ∀ y, y ∈ l → m ≤ y.
Proof.
  split; [apply py_min_spec|]. intros [Hin Hle].
  destruct (py_min_is_Some l) as [m' Hm'].
  { intros ->. by apply elem_of_nil in Hin. }
  destruct (py_min_spec _ _ Hm') as [Hin' Hle'].
  pose proof (Hle _ Hin'). pose proof (Hle' _ Hin).
  rewrite Hm'. f_equal. lia.
Qed.

Lemma elements_transpose (t : Z) (pressed_notes : gset Z) :
  elements (transpose t pressed_notes)
  ≡ₚ (λ note, note + t) <$> elements pressed_notes.
Proof.
  apply NoDup_Permutation.
  - apply NoDup_elements.
  - apply NoDup_fmap_2; [|apply NoDup_elements].
    intros x y Hxy. lia.
  - intros n. unfold transpose.
    rewrite elem_of_elements, elem_of_map, list_elem_of_fmap.
    by setoid_rewrite elem_of_elements.
Qed.

Lemma size_transpose (t : Z) (pressed_notes : gset Z) :
  size (transpose t pressed_notes) = size pressed_notes.
Proof.
  unfold size, set_size. simpl.
  by rewrite elements_transpose, length_fmap.
Qed.

Lemma py_min_transpose (t root : Z) (pressed_notes : gset Z) :
  py_min (elements pressed_notes) = Some root →
  py_min (elements (transpose t pressed_notes)) = Some (root + t).
Proof.
  intros [Hin Hle]%py_min_iff. apply py_min_iff. split.
  - rewrite elements_transpose.
    by apply (list_elem_of_fmap_2 (λ note, note + t)).
  - intros y. rewrite elements_transpose.
    intros (n & -> & Hn)%list_elem_of_fmap. apply Hle in Hn. lia.
Qed.

Lemma intervals_of_transpose (t root : Z) (pressed_notes : gset Z) :
  intervals_of (root + t) (transpose t pressed_notes)
  = intervals_of root pressed_notes.
Proof.
  apply (Sorted_unique Z.le); try apply intervals_of_Sorted.
  rewrite !intervals_of_Permutation, elements_transpose.
  rewrite <- list_fmap_compose.
  erewrite list_fmap_ext; [done|].
  intros _ n _. simpl. f_equal. lia.
Qed.

(** What [recognize_chord] returns for transposed notes. *)
Lemma recognize_chord_transpose_spec (t : Z) (pressed_notes : gset Z) :
  (3 ≤ size pressed_notes)%nat →
  ∃ root name name',
    py_min (elements pressed_notes) = Some root
    ∧ note_name (root mod 12) = Some name
    ∧ note_name ((root + t) mod 12) = Some name'
    ∧ recognize_chord pressed_notes
      = (let chord_type :=
           default "Complex" (CHORD_TYPES !! intervals_of root pressed_notes) in
         Ok (Some (name ++ " " ++ chord_type, root mod 12, chord_type)))
    ∧ recognize_chord (transpose t pressed_notes)
      = (let chord_type :=
           default "Complex" (CHORD_TYPES !! intervals_of root pressed_notes) in
         Ok (Some (name' ++ " " ++ chord_type, (root + t) mod 12, chord_type))).
Proof.
  intros Hsize.
  destruct (recognize_chord_spec pressed_notes Hsize)
    as (root & name & Hroot & _ & _ & Hname & Heq).
  destruct (recognize_chord_spec (transpose t pressed_notes))
    as (root' & name' & Hroot' & _ & _ & Hname' & Heq').
  { by rewrite size_transpose. }
  rewrite (py_min_transpose t root _ Hroot) in Hroot'.
  injection Hroot' as <-.
  rewrite intervals_of_transpose in Heq'.
  by exists root, name, name'.
Qed.

(** X9: transposing the held notes keeps the chord type.  When
    [recognize_chord] returns a label for the held notes, it returns for
    the notes moved by [t] semitones the same chord type with the root
    moved by [t], named accordingly; and for a move by whole octaves it
    returns the very same result. *)
Theorem recognize_chord_transpose (t : Z) (pressed_notes : gset Z) :
  chord_type_of (recognize_chord (transpose t pressed_notes))
  = chord_type_of (recognize_chord pressed_notes)
  ∧ (∀ label pc chord_type,
       recognize_chord pressed_notes = Ok (Some (label, pc, chord_type)) →
       ∃ name,
         note_name ((pc + t) mod 12) = Some name
         ∧ recognize_chord (transpose t pressed_notes)
           = Ok (Some (name ++ " " ++ chord_type, (pc + t) mod 12, chord_type)))
  ∧ (∀ k, t = 12 * k →
       recognize_chord (transpose t pressed_notes)
       = recognize_chord pressed_notes).
Proof.
  destruct (decide (size pressed_notes < 3)%nat) as [Hlt | Hge].
  - assert (Hnone : recognize_chord pressed_notes = Ok None)
      by by apply recognize_chord_none.
    assert (Hnone' : recognize_chord (transpose t pressed_notes) = Ok None).
    { apply recognize_chord_none. by rewrite size_transpose. }
    rewrite Hnone, Hnone'. split_and!; [done | | done].
    by intros label pc chord_type [=].
  - destruct (recognize_chord_transpose_spec t pressed_notes)
      as (root & name & name' & _ & Hname & Hname' & Heq & Heq'); [lia|].
    rewrite Heq, Heq'. cbv zeta. split_and!.
    + reflexivity.
    + intros label pc chord_type Hrec.
      apply (f_equal (λ r, match r with
                           | Ok (Some (_, pc', ty)) => Some (pc', ty)
                           | _ => None
                           end)) in Hrec.
      cbv beta iota in Hrec. injection Hrec as <- <-.
      rewrite Zplus_mod_idemp_l. by exists name'.
    + intros k ->.
      assert (Hsame : (root + 12 * k) mod 12 = root mod 12).
      { rewrite (Z.mul_comm 12 k). apply Z.mod_add. lia. }
      rewrite Hsame in Hname' |- *. congruence.
Qed.

Lemma recognize_chord_transpose_witness :
  ∃ name,
    note_name ((0 + 7) mod 12) = Some name
    ∧ recognize_chord (transpose 7 {[60; 64; 67]})
      = Ok (Some (name ++ " " ++ "Major", (0 + 7) mod 12, "Major")).
Proof.
  apply (proj1 (proj2 (recognize_chord_transpose 7 {[60; 64; 67]}))
           "C Major" 0 "Major").
  vm_compute. reflexivity.
Defined.

Lemma shape_recognized (shape : list Z) (chord_type : string) (r : Z) :
  (3 ≤ size (list_to_set shape : gset Z))%nat →
  py_min (elements (list_to_set shape : gset Z)) = Some 0 →
  CHORD_TYPES !! intervals_of 0 (list_to_set shape) = Some chord_type →
  ∃ name,
    note_name (r mod 12) = Some name
    ∧ recognize_chord (list_to_set ((λ offset, r + offset) <$> shape))
      = Ok (Some (name ++ " " ++ chord_type, r mod 12, chord_type)).
Proof.
  intros Hsize Hmin Htype.
  assert (Hset : (list_to_set ((λ offset, r + offset) <$> shape) : gset Z)
                 = transpose r (list_to_set shape)).
  { apply set_eq. intros n. unfold transpose.
    rewrite elem_of_list_to_set, list_elem_of_fmap, elem_of_map.
    setoid_rewrite elem_of_list_to_set.
    split; intros (o & -> & Ho); exists o; (split; [lia | done]). }
  rewrite Hset.
  destruct (recognize_chord_transpose_spec r (list_to_set shape) Hsize)
    as (root & name & name' & Hroot & _ & Hname' & _ & Heq').
  rewrite Hmin in Hroot. injection Hroot as <-.
  rewrite Htype in Heq'. cbv zeta in Heq'. cbn [default] in Heq'.
  rewrite Z.add_0_l in Hname', Heq'. by exists name'.
Qed.

(** X10: every shape of [CHORD_TYPES] that lies within an octave is
    recognised on every root: the notes [r + offset] for the offsets of
    the shape give the shape's chord type, the root [r mod 12] and the
    label made of the root's name and the chord type. *)
Theorem catalog_shapes_recognized (shape : list Z) (chord_type : string)
    (r : Z) :
  (shape, chord_type) ∈ CHORD_TYPES_items →
  (∀ offset, offset ∈ shape → offset < 12) →
  ∃ name,
    note_name (r mod 12) = Some name
    ∧ recognize_chord (list_to_set ((λ offset, r + offset) <$> shape))
      = Ok (Some (name ++ " " ++ chord_type, r mod 12, chord_type)).
Proof.
  intros Hin Hoctave. unfold CHORD_TYPES_items in Hin.
  rewrite !elem_of_cons, elem_of_nil in Hin.
  destruct_or!; try done; simplify_eq;
    first
      [ apply shape_recognized; vm_compute; first [ reflexivity | lia ]
      | exfalso; assert (14 < 12); [apply Hoctave; set_solver | lia] ].
Qed.

Lemma catalog_shapes_recognized_witness :
  ∃ name,
    note_name (-3 mod 12) = Some name
    ∧ recognize_chord
        (list_to_set ((λ offset, -3 + offset) <$> [0; 3; 7; 10]))
      = Ok (Some (name ++ " " ++ "Minor 7th", -3 mod 12, "Minor 7th")).
Proof.
  apply (catalog_shapes_recognized [0; 3; 7; 10] "Minor 7th" (-3)).
  - unfold CHORD_TYPES_items. rewrite !elem_of_cons. auto.
  - intros offset. rewrite !elem_of_cons, elem_of_nil.
    intros [-> | [-> | [-> | [-> | []]]]]; lia.
Defined.

(** ** More on the tables *)

(** X11: [MIDI_TO_CIRCLE] is multiplication by 7 modulo 12 on the pitch
    classes 0..11, it is its own inverse there, and it has no other key:
    [MIDI_TO_CIRCLE[pc]] is a [KeyError] for every other [pc]. *)
Theorem MIDI_TO_CIRCLE_fifths (pc : Z) :
  (0 ≤ pc ≤ 11 →
   MIDI_TO_CIRCLE !! pc = Some ((7 * pc) mod 12)
   ∧ MIDI_TO_CIRCLE !! pc ≫= (MIDI_TO_CIRCLE !!.) = Some pc)
  ∧ (¬ (0 ≤ pc ≤ 11) → MIDI_TO_CIRCLE !! pc = None).
Proof.
  split.
  - intros Hpc. assert (Hpc' : 0 ≤ pc < 12) by lia.
    each_pitch_class Hpc'; split; vm_compute; reflexivity.
  - intros Hout. apply not_elem_of_list_to_map_1.
    unfold MIDI_TO_CIRCLE_items. cbn [fmap list_fmap fst].
    rewrite !not_elem_of_cons. split_and!; try lia.
    apply not_elem_of_nil.
Qed.

Lemma MIDI_TO_CIRCLE_fifths_witness :
  MIDI_TO_CIRCLE !! 5 = Some ((7 * 5) mod 12)
  ∧ MIDI_TO_CIRCLE !! 5 ≫= (MIDI_TO_CIRCLE !!.) = Some 5.
Proof. apply (proj1 (MIDI_TO_CIRCLE_fifths 5)). lia. Defined.

(** X12: every pitch class of 0..11 has a name, two different pitch
    classes have different names, and the name at the position [i] of
    [NOTES] is the name of the pitch class [7 * i mod 12]: the list is in
    the order of the fifths. *)
Theorem note_name_injective :
  (∀ pc1 pc2, 0 ≤ pc1 ≤ 11 → 0 ≤ pc2 ≤ 11 →
     note_name pc1 = note_name pc2 → pc1 = pc2)
  ∧ (∀ i, 0 ≤ i ≤ 11 →
       is_Some (py_index NOTES i)
       ∧ note_name ((7 * i) mod 12) = py_index NOTES i)
  ∧ NoDup NOTES.
Proof.
  split_and!.
  - intros pc1 pc2 H1 H2.
    assert (H1' : 0 ≤ pc1 < 12) by lia. assert (H2' : 0 ≤ pc2 < 12) by lia.
    clear H1 H2.
    each_pitch_class H1'; each_pitch_class H2';
      first [ done | vm_compute; discriminate ].
  - intros i Hi. assert (Hi' : 0 ≤ i < 12) by lia.
    each_pitch_class Hi'; split; vm_compute; eauto.
  - apply (bool_decide_unpack _). vm_compute. reflexivity.
Qed.

Lemma note_name_injective_witness :
  is_Some (py_index NOTES 7) ∧ note_name ((7 * 7) mod 12) = py_index NOTES 7.
Proof.
  apply (proj1 (proj2 note_name_injective) 7). lia.
Defined.

(** ** More on [get_scale] *)

Lemma scale_offsets_distinct (root : Z) (pattern : list Z) :
  NoDup pattern → (∀ offset, offset ∈ pattern → 0 ≤ offset < 12) →
  NoDup ((λ interval, (root + interval) mod 12) <$> pattern).
Proof.
  intros Hnodup Hrange. apply NoDup_fmap_2_strong; [|done].
  intros a b Ha%Hrange Hb%Hrange Heq.
  assert (Hdiff : (a - b) mod 12 = 0).
  { replace (a - b) with ((root + a) - (root + b)) by lia.
    rewrite Zminus_mod, Heq, Z.sub_diag. reflexivity. }
  apply Z.mod_divide in Hdiff as [k Hk]; lia.
Qed.

(** X13: the members of a scale are pairwise different pitch classes, the
    first of them is the root's pitch class for each of the four scale
    names, and moving the root by [t] semitones moves every member by [t]
    modulo 12, so that the scale depends on the root modulo 12 only. *)
Theorem get_scale_members (root : Z) (scale_type : string) :
  NoDup (get_scale root scale_type)
  ∧ (scale_type ∈ ["Major"; "Natural Minor"; "Harmonic Minor"; "Pentatonic"] →
     head (get_scale root scale_type) = Some (root mod 12))
  ∧ (∀ t, get_scale (root + t) scale_type
          = (λ pc, (pc + t) mod 12) <$> get_scale root scale_type)
  ∧ get_scale (root mod 12) scale_type = get_scale root scale_type.
Proof.
  assert (Hmove : ∀ t (pattern : list Z),
    (λ interval, (root + t + interval) mod 12) <$> pattern
    = (λ pc, (pc + t) mod 12)
        <$> ((λ interval, (root + interval) mod 12) <$> pattern)).
  { intros t pattern. rewrite <- list_fmap_compose.
    apply list_fmap_ext. intros _ interval _. simpl.
    rewrite Zplus_mod_idemp_l. f_equal. lia. }
  assert (Hmod : ∀ pattern : list Z,
    (λ interval, (root mod 12 + interval) mod 12) <$> pattern
    = (λ interval, (root + interval) mod 12) <$> pattern).
  { intros pattern. apply list_fmap_ext. intros _ interval _. simpl.
    by rewrite Zplus_mod_idemp_l. }
  assert (Hdistinct : ∀ pattern : list Z,
    NoDup pattern ∧ Forall (λ offset, 0 ≤ offset < 12) pattern →
    NoDup ((λ interval, (root + interval) mod 12) <$> pattern)).
  { intros pattern [Hnodup Hrange]. apply scale_offsets_distinct; [done|].
    by apply Forall_forall. }
  unfold get_scale.
  repeat case_decide; subst; split_and!;
    lazymatch goal with
    | |- NoDup [] => apply NoDup_nil_2
    | |- NoDup _ =>
        apply Hdistinct; apply (bool_decide_unpack _); vm_compute;
        reflexivity
    | |- _ → head [] = _ =>
        rewrite !elem_of_cons, elem_of_nil; intros Hty; destruct_or!; done
    | |- _ → head _ = _ =>
        intros _;
        unfold MAJOR_SCALE, NATURAL_MINOR_SCALE, HARMONIC_MINOR_SCALE,
          PENTATONIC_SCALE;
        cbn [fmap list_fmap head]; by rewrite Z.add_0_r
    | |- ∀ t, _ => intros t; first [apply Hmove | reflexivity]
    | |- _ => first [apply Hmod | reflexivity]
    end.
Qed.

Lemma get_scale_members_witness :
  head (get_scale 14 "Natural Minor") = Some (14 mod 12).
Proof.
  apply (proj1 (proj2 (get_scale_members 14 "Natural Minor"))).
  rewrite !elem_of_cons. auto.
Defined.

(** ** [draw_circle_of_fifths] and the frame of one turn of the loop *)

Example contains_7th : contains "7th" "Dominant 7th" = true.
Proof. reflexivity. Qed.

Example contains_empty : contains "" "" = true.
Proof. reflexivity. Qed.

Example replace_scale :
  replace " Scale" "" "Natural Minor Scale" = "Natural Minor".
Proof. reflexivity. Qed.

Example replace_all : replace "ab" "x" "abcabab" = "xcxx".
Proof. reflexivity. Qed.

Example replace_empty : replace "" "-" "abc" = "-a-b-c-".
Proof. reflexivity. Qed.

Lemma recognized_chord_types (pressed_notes : gset Z) (label : string)
    (pc : Z) (chord_type : string) :
  recognize_chord pressed_notes = Ok (Some (label, pc, chord_type)) →
  chord_type ∈ ["Major"; "Minor"; "Dominant 7th"; "Minor 7th"; "Major 7th";
                "Diminished"; "Diminished 7th"; "Augmented"; "Sus2"; "Sus4";
                "6th"; "Minor 6th"; "Complex"].
Proof.
  intros Hrec.
  destruct (decide (size pressed_notes < 3)%nat) as [Hlt | Hge].
  { apply recognize_chord_none in Hlt. congruence. }
  destruct (recognize_chord_spec pressed_notes)
    as (root & root_name & _ & _ & _ & _ & Heq); [lia|].
  rewrite Heq in Hrec. cbv zeta in Hrec.
  apply (f_equal chord_type_of) in Hrec.
  cbv beta iota delta [chord_type_of] in Hrec.
  destruct (CHORD_TYPES !! intervals_of root pressed_notes)
    as [entry|] eqn:Hentry; cbn [default] in Hrec; injection Hrec as <-.
  - pose proof (extended_chord_key _ _ Hentry) as Hextended.
    apply CHORD_TYPES_lookup in Hentry. unfold CHORD_TYPES_items in Hentry.
    rewrite !elem_of_cons, elem_of_nil in Hentry.
    destruct_or!; try done; simplify_eq;
      try (rewrite !elem_of_cons; by auto 20);
      exfalso;
      (assert (Hin : 14 ∈ intervals_of root pressed_notes);
       [apply Hextended; rewrite !elem_of_cons; by auto
       |apply intervals_of_range in Hin; lia]).
  - rewrite !elem_of_cons. by auto 20.
Qed.

(** X14: the chord types that [recognize_chord] can return are the twelve
    shapes within an octave and Complex, and the two flags that choose
    the chord's colour are: [is_major] for Major, Dominant 7th, Major 7th
    and Augmented, [is_seventh] for the four 7th chords, and neither for
    any other chord type. *)
Theorem chord_type_flags (pressed_notes : gset Z) (label : string) (pc : Z)
    (chord_type : string) :
  recognize_chord pressed_notes = Ok (Some (label, pc, chord_type)) →
  chord_type ∈ ["Major"; "Minor"; "Dominant 7th"; "Minor 7th"; "Major 7th";
                "Diminished"; "Diminished 7th"; "Augmented"; "Sus2"; "Sus4";
                "6th"; "Minor 6th"; "Complex"]
  ∧ (is_major chord_type = true
     ↔ chord_type ∈ ["Major"; "Dominant 7th"; "Major 7th"; "Augmented"])
  ∧ (is_seventh chord_type = true
     ↔ chord_type ∈ ["Dominant 7th"; "Minor 7th"; "Major 7th";
                     "Diminished 7th"]).
Proof.
  intros Hty%recognized_chord_types. split; [done|].
  rewrite !elem_of_cons, elem_of_nil in Hty.
  destruct_or!; try done; subst chord_type;
    (split; apply (bool_decide_unpack _); vm_compute; reflexivity).
Qed.

Lemma chord_type_flags_witness :
  "Major 7th" ∈ ["Major"; "Minor"; "Dominant 7th"; "Minor 7th"; "Major 7th";
                 "Diminished"; "Diminished 7th"; "Augmented"; "Sus2"; "Sus4";
                 "6th"; "Minor 6th"; "Complex"]
  ∧ (is_major "Major 7th" = true
     ↔ "Major 7th" ∈ ["Major"; "Dominant 7th"; "Major 7th"; "Augmented"])
  ∧ (is_seventh "Major 7th" = true
     ↔ "Major 7th" ∈ ["Dominant 7th"; "Minor 7th"; "Major 7th";
                      "Diminished 7th"]).
Proof.
  apply (chord_type_flags {[60; 64; 67; 71]} "C Major 7th" 0 "Major 7th").
  vm_compute. reflexivity.
Defined.

(** What [draw_circle_of_fifths] returns when the scale root, if there is
    one, is a pitch class. *)
Lemma draw_circle_of_fifths_spec (pressed_notes : gset string)
    (info : option chord_info) (root : option Z) (scale_type : string)
    (show_note_names : bool) :
  (∀ r, root = Some r → 0 ≤ r < 12) →
  ∃ scale_name,
    (scale_name = None ↔ root = None)
    ∧ draw_circle_of_fifths pressed_notes info root scale_type show_note_names
      = Ok (Scene
              (imap (λ i note,
                       (circle_color pressed_notes info
                          (scale_notes root scale_type) i note,
                        if show_note_names then note else ""))
                    NOTES)
              (bool_decide
                 (1 < length (filter (λ note, note ∈ pressed_notes) NOTES))%nat)
              (match info with
               | Some (chord_name, _, _) => Some chord_name
               | None => None
               end)
              scale_name).
Proof.
  intros Hrange. unfold draw_circle_of_fifths. destruct root as [r|].
  - destruct (MIDI_TO_CIRCLE_total r) as (index & Hindex & Hbound); [auto|].
    destruct (NOTES_total index Hbound) as [name Hname].
    rewrite Hindex. cbn [of_option mbind result_bind]. rewrite Hname.
    cbn [of_option mbind result_bind]. eexists. split; [|reflexivity]. done.
  - exists None. done.
Qed.

Lemma pressed_names_in_NOTES (s : engine) (name : string) :
  reachable s → name ∈ pressed_circle_notes s → name ∈ NOTES.
Proof.
  intros (_ & _ & _ & _ & Hnames)%reachable_coherent Hname.
  destruct (Hnames _ Hname) as (note & _ & Hnote).
  unfold note_name in Hnote.
  destruct (MIDI_TO_CIRCLE_total (note mod 12)) as (index & Hindex & Hbound);
    [apply mod12_bound|].
  rewrite Hindex in Hnote. cbn [mbind option_bind] in Hnote.
  unfold py_index in Hnote. rewrite decide_True in Hnote by lia.
  by apply list_elem_of_lookup_2 in Hnote.
Qed.

(** X15: in every state of the loop the frame is drawn without an
    exception, for every scale name and both toggles: it has the twelve
    circles, the chord text exactly when three notes or more are held,
    and the scale text exactly when the scale is shown and a note is
    held. *)
Theorem render_total (scale_type : string) (show_scale show_note_names : bool)
    (s : engine) :
  reachable s →
  ∃ sc, render scale_type show_scale show_note_names s = Ok sc
    ∧ length (circles sc) = 12%nat
    ∧ (chord_text sc = None ↔ (size (pressed_midi_notes s) < 3)%nat)
    ∧ (scale_text sc = None
       ↔ show_scale = false ∨ pressed_midi_notes s = ∅).
Proof.
  intros Hs.
  destruct (reachable_coherent s Hs) as (_ & _ & Hroot & Hrange & _).
  set (root := if show_scale then scale_root s else None).
  assert (Hrange' : ∀ r, root = Some r → 0 ≤ r < 12).
  { intros r. unfold root. destruct show_scale; [apply Hrange | done]. }
  assert (Hnone : root = None
                  ↔ show_scale = false ∨ pressed_midi_notes s = ∅).
  { unfold root. destruct show_scale.
    - rewrite Hroot. split; [by right | by intros [? | ?]].
    - split; [by left | done]. }
  assert (Hinfo : ∃ info,
    recognize_chord (pressed_midi_notes s) = Ok info
    ∧ (info = None ↔ (size (pressed_midi_notes s) < 3)%nat)).
  { destruct (decide (size (pressed_midi_notes s) < 3)%nat) as [Hlt | Hge].
    - exists None. split; [by apply recognize_chord_none | done].
    - destruct (recognize_chord_spec (pressed_midi_notes s))
        as (? & ? & _ & _ & _ & _ & Heq); [lia|].
      eexists. split; [exact Heq|]. done. }
  destruct Hinfo as (info & Hrec & Hinfo).
  destruct (draw_circle_of_fifths_spec (pressed_circle_notes s) info root
              scale_type show_note_names Hrange')
    as (scale_name & Hscale & Hdraw).
  eexists. unfold render. rewrite Hrec. cbn [mbind result_bind].
  fold root. split; [exact Hdraw|]. cbn [circles chord_text scale_text].
  split_and!.
  - by rewrite length_imap.
  - rewrite <- Hinfo. by destruct info as [[[? ?] ?]|].
  - by rewrite Hscale.
Qed.

Lemma render_total_witness :
  ∃ sc, render "Major" true false initial = Ok sc
    ∧ length (circles sc) = 12%nat
    ∧ (chord_text sc = None ↔ (size (pressed_midi_notes initial) < 3)%nat)
    ∧ (scale_text sc = None
       ↔ true = false ∨ pressed_midi_notes initial = ∅).
Proof. apply (render_total "Major" true false initial), reachable_initial. Defined.

(** X16: the outline through the pressed positions is drawn exactly when
    two different names or more are pressed; the number of held notes
    does not matter, two notes of one pitch class press one name. *)
Theorem outline_iff_two_names (scale_type : string)
    (show_scale show_note_names : bool) (s : engine) (sc : scene) :
  reachable s →
  render scale_type show_scale show_note_names s = Ok sc →
  outline sc = true ↔ (2 ≤ size (pressed_circle_notes s))%nat.
Proof.
  intros Hs Hrender.
  assert (Hcount :
    length (filter (λ note, note ∈ pressed_circle_notes s) NOTES)
    = size (pressed_circle_notes s)).
  { unfold size, set_size. simpl. apply Permutation_length.
    apply NoDup_Permutation.
    - apply NoDup_filter. apply (bool_decide_unpack _). vm_compute.
      reflexivity.
    - apply NoDup_elements.
    - intros name. rewrite list_elem_of_filter, elem_of_elements.
      split; [by intros [? _] | intros Hname].
      split; [done | by apply (pressed_names_in_NOTES s)]. }
  unfold render in Hrender.
  destruct (recognize_chord (pressed_midi_notes s)) as [info|] eqn:Hrec;
    [|done].
  cbn [mbind result_bind] in Hrender.
  destruct (reachable_coherent s Hs) as (_ & _ & _ & Hrange & _).
  destruct (draw_circle_of_fifths_spec (pressed_circle_notes s) info
              (if show_scale then scale_root s else None)
              scale_type show_note_names)
    as (scale_name & _ & Hdraw).
  { intros r. destruct show_scale; [apply Hrange | done]. }
  rewrite Hdraw in Hrender. injection Hrender as <-.
  cbn [outline]. rewrite Hcount, bool_decide_eq_true. lia.
Qed.

Lemma outline_iff_two_names_witness :
  outline
    (Scene
       (imap (λ i note,
                (circle_color ∅ None (scale_notes None "Major") i note, ""))
             NOTES)
       false None None) = true
  ↔ (2 ≤ size (pressed_circle_notes initial))%nat.
Proof.
  apply (outline_iff_two_names "Major" true false initial).
  - apply reachable_initial.
  - reflexivity.
Defined.

Lemma Ok_inj {A : Type} (a b : A) : Ok a = Ok b → a = b.
Proof. by intros [=]. Qed.

(** X17: line 155 compares the position [i] of a circle with the members
    of the scale, which are pitch classes.  With no name pressed, a scale
    root of 0..11 and one of the four scale names, as many circles have
    the scale colour as the scale has members; but they are not the
    circles of the scale's members: for some pitch class of 0..11, having
    its circle in the scale colour and being a member of the scale
    differ. *)
Theorem scale_colour_positions (root : Z) (scale_type : string)
    (info : option chord_info) (show_note_names : bool) (sc : scene) :
  0 ≤ root ≤ 11 →
  scale_type ∈ ["Major"; "Natural Minor"; "Harmonic Minor"; "Pentatonic"] →
  draw_circle_of_fifths ∅ info (Some root) scale_type show_note_names
  = Ok sc →
  (∀ i c txt, circles sc !! i = Some (c, txt) →
     c = Rgb SCALE_COLOR ↔ Z.of_nat i ∈ get_scale root scale_type)
  ∧ length (filter (λ circle, circle.1 = Rgb SCALE_COLOR) (circles sc))
    = length (get_scale root scale_type)
  ∧ Exists (λ pc, scale_coloured sc pc
                  ≠ bool_decide (pc ∈ get_scale root scale_type))
           (seqZ 0 12).
Proof.
  intros Hroot Hty Hdraw.
  destruct (draw_circle_of_fifths_spec ∅ info (Some root) scale_type
              show_note_names) as (scale_name & _ & Hspec).
  { intros r [= <-]. lia. }
  rewrite Hspec in Hdraw. apply Ok_inj in Hdraw. subst sc.
  cbn [circles scale_notes].
  split.
  - intros i c txt. rewrite list_lookup_imap.
    destruct (NOTES !! i) as [note|]; [|done].
    cbn [fmap option_fmap option_map]. intros [= <- _].
    unfold circle_color. rewrite decide_False by apply not_elem_of_empty.
    destruct (decide (Z.of_nat i ∈ get_scale root scale_type));
      split; done.
  - assert (Hroot' : 0 ≤ root < 12) by lia. clear Hroot.
    rewrite !elem_of_cons, elem_of_nil in Hty.
    each_pitch_class Hroot'; destruct_or!; try done; subst scale_type;
      (split; [vm_compute; reflexivity
              | apply (bool_decide_unpack _); vm_compute; reflexivity]).
Qed.

Lemma scale_colour_positions_witness :
  (∀ i c txt,
     imap (λ i note,
             (circle_color ∅ None (scale_notes (Some 0) "Major") i note, ""))
          NOTES !! i = Some (c, txt) →
     c = Rgb SCALE_COLOR ↔ Z.of_nat i ∈ get_scale 0 "Major")
  ∧ length
      (filter (λ circle, circle.1 = Rgb SCALE_COLOR)
         (imap (λ i note,
                  (circle_color ∅ None (scale_notes (Some 0) "Major") i note,
                   ""))
               NOTES))
    = length (get_scale 0 "Major")
  ∧ Exists
      (λ pc,
         scale_coloured
           (Scene
              (imap (λ i note,
                       (circle_color ∅ None (scale_notes (Some 0) "Major")
                          i note, ""))
                    NOTES)
              false None (Some "C Major Scale")) pc
         ≠ bool_decide (pc ∈ get_scale 0 "Major"))
      (seqZ 0 12).
Proof.
  apply (scale_colour_positions 0 "Major" None false
           (Scene
              (imap (λ i note,
                       (circle_color ∅ None (scale_notes (Some 0) "Major")
                          i note, ""))
                    NOTES)
              false None (Some "C Major Scale"))).
  - lia.
  - rewrite !elem_of_cons. auto.
  - reflexivity.
Defined.

(** ** [Button.handle_event] and the buttons of [main] *)

Lemma handle_event_static (collidepoint : Rect → Z * Z → bool)
    (b b' : Button.t) (event : pygame_event) (handled : bool) :
  Button.handle_event collidepoint b event = (b', handled) →
  Button.set_active false b' = Button.set_active false b
  ∧ (handled = false → b' = b).
Proof.
  unfold Button.handle_event. intros Hcall.
  destruct event as [|button pos|]; try (by injection Hcall as <- <-).
  destruct (decide (button = 1)); [|by injection Hcall as <- <-].
  destruct (collidepoint (Button.rect b) pos);
    [|by injection Hcall as <- <-].
  injection Hcall as <- <-. split; [|done].
  by destruct (Button.toggle b).
Qed.

Lemma deactivate_others_static (i : nat) (l : list Button.t) :
  Button.set_active false <$> Main.deactivate_others i l
  = Button.set_active false <$> l.
Proof.
  apply list_eq. intros j. unfold Main.deactivate_others.
  rewrite !list_lookup_fmap, list_lookup_imap.
  destruct (l !! j) as [b|]; [|done]. simpl. by case_decide.
Qed.

Lemma deactivate_others_lookup (i j : nat) (l : list Button.t)
    (b : Button.t) :
  Main.deactivate_others i l !! j = Some b →
  ∃ b', l !! j = Some b'
        ∧ b = (if decide (2 ≤ j ∧ j ≠ i)%nat
               then Button.set_active false b' else b').
Proof.
  unfold Main.deactivate_others. rewrite list_lookup_imap.
  destruct (l !! j) as [b'|]; [|done]. intros [= <-]. by exists b'.
Qed.

Lemma buttons0_text (i : nat) (b : Button.t) :
  Main.buttons0 !! i = Some (Button.set_active false b) →
  (i = 0%nat ∧ Button.text b = "Toggle Scale Highlight")
  ∨ (i = 1%nat ∧ Button.text b = "Toggle Note Names")
  ∨ ((2 ≤ i)%nat
     ∧ contains "Scale" (Button.text b) = true
     ∧ Button.text b ≠ "Toggle Scale Highlight"
     ∧ Button.text b ≠ "Toggle Note Names"
     ∧ replace " Scale" "" (Button.text b)
       ∈ ["Major"; "Natural Minor"; "Harmonic Minor"; "Pentatonic"]).
Proof.
  intros Hlook.
  assert (Htext : Button.text <$> Main.buttons0 !! i = Some (Button.text b)).
  { by rewrite Hlook. }
  clear Hlook.
  destruct i as [|[|[|[|[|[|i]]]]]]; simpl in Htext; try done;
    injection Htext as <-.
  - by left.
  - right; by left.
  - right; right. split_and!; [lia | done | done | done |].
    vm_compute (replace _ _ _). rewrite !elem_of_cons; auto.
  - right; right. split_and!; [lia | done | done | done |].
    vm_compute (replace _ _ _). rewrite !elem_of_cons; auto.
  - right; right. split_and!; [lia | done | done | done |].
    vm_compute (replace _ _ _). rewrite !elem_of_cons; auto.
  - right; right. split_and!; [lia | done | done | done |].
    vm_compute (replace _ _ _). rewrite !elem_of_cons; auto.
Qed.

Lemma click_inv (collidepoint : Rect → Z * Z → bool) (event : pygame_event)
    (u : Main.state) (i : nat) :
  Main.inv u → Main.inv (Main.click collidepoint event u i).
Proof.
  intros (Hstatic & Hty & Hscale & H0 & H1). unfold Main.click.
  destruct (Main.buttons u !! i) as [b|] eqn:Hb; [|done].
  destruct (Button.handle_event collidepoint b event) as [b' handled] eqn:Hcall.
  destruct (handle_event_static _ _ _ _ _ Hcall) as [Hsame Hskip].
  assert (Hb0 : Main.buttons0 !! i = Some (Button.set_active false b)).
  { by rewrite <- Hstatic, list_lookup_fmap, Hb. }
  assert (Hstatic' :
    Button.set_active false <$> <[i := b']> (Main.buttons u) = Main.buttons0).
  { rewrite list_fmap_insert, Hsame, Hstatic. by apply list_insert_id. }
  assert (Hi : (i < length (Main.buttons u))%nat).
  { apply lookup_lt_is_Some. by rewrite Hb. }
  destruct handled.
  - rewrite <- Hsame in Hb0.
    destruct (buttons0_text i b' Hb0)
      as [[-> Htext] | [[-> Htext] | (Hge & Hin & Hne0 & Hne1 & Hname)]].
    + rewrite decide_True by done. split_and!; simpl; try done.
      * intros j bj Hj Hge. apply (Hscale j); [|done].
        rewrite list_lookup_insert_ne in Hj by lia. done.
      * intros b0. rewrite list_lookup_insert_eq by done. by intros [= <-].
      * intros b1. rewrite list_lookup_insert_ne by lia. apply H1.
    + rewrite decide_False, decide_True by (rewrite ?Htext; done).
      split_and!; simpl; try done.
      * intros j bj Hj Hge. apply (Hscale j); [|done].
        rewrite list_lookup_insert_ne in Hj by lia. done.
      * intros b0. rewrite list_lookup_insert_ne by lia. apply H0.
      * intros b1. rewrite list_lookup_insert_eq by done. by intros [= <-].
    + rewrite !decide_False by done. rewrite Hin.
      split_and!; simpl; try done.
      * by rewrite deactivate_others_static.
      * intros j bj (bj' & Hj & ->)%deactivate_others_lookup Hj2.
        case_decide as Hother; [done|]. intros _.
        assert (j = i) as -> by lia.
        rewrite list_lookup_insert_eq in Hj by done. by injection Hj as <-.
      * intros b0 (b0' & Hj & ->)%deactivate_others_lookup.
        rewrite decide_False by lia.
        rewrite list_lookup_insert_ne in Hj by lia. by apply H0.
      * intros b1 (b1' & Hj & ->)%deactivate_others_lookup.
        rewrite decide_False by lia.
        rewrite list_lookup_insert_ne in Hj by lia. by apply H1.
  - rewrite (Hskip eq_refl), (list_insert_id _ _ _ Hb).
    by split_and!.
Qed.

Lemma handle_inv (collidepoint : Rect → Z * Z → bool) (event : pygame_event)
    (u : Main.state) :
  Main.inv u → Main.inv (Main.handle collidepoint event u).
Proof.
  intros Hu. unfold Main.handle.
  set (u' := match event with
             | QUIT => _
             | _ => u
             end).
  assert (Hu' : Main.inv u') by (unfold u'; by destruct event).
  generalize (seq 0 (length (Main.buttons u'))). intros l.
  clearbody u'. clear Hu. revert u' Hu'.
  induction l as [|i l IH]; intros u' Hu'; [done|].
  simpl. apply IH. by apply click_inv.
Qed.

Lemma reachable_ui_inv (collidepoint : Rect → Z * Z → bool)
    (u : Main.state) :
  Main.reachable collidepoint u → Main.inv u.
Proof.
  induction 1 as [|u event _ IH]; [|by apply handle_inv].
  split_and!; simpl; try done.
  - rewrite !elem_of_cons. auto.
  - intros j b Hj _ Hactive.
    assert (Hfalse : Button.active <$> Main.buttons0 !! j = Some true)
      by by rewrite Hj, <- Hactive.
    by destruct j as [|[|[|[|[|[|j]]]]]].
  - by intros b [= <-].
  - by intros b [= <-].
Qed.

(** X18: whatever is clicked, the scale name that [main] hands to
    [get_scale] is one of the four names it knows, so that the scale of a
    root is never the empty list of an unknown name. *)
Theorem scale_type_always_known (collidepoint : Rect → Z * Z → bool)
    (u : Main.state) :
  Main.reachable collidepoint u →
  Main.scale_type u
  ∈ ["Major"; "Natural Minor"; "Harmonic Minor"; "Pentatonic"]
  ∧ ∀ root, get_scale root (Main.scale_type u) ≠ [].
Proof.
  intros (_ & Hty & _)%reachable_ui_inv. split; [done|].
  intros root. rewrite !elem_of_cons, elem_of_nil in Hty.
  destruct_or!; try done; rewrite Hty; discriminate.
Qed.

Lemma scale_type_always_known_witness :
  Main.scale_type
    (Main.handle Main.inside (MOUSEBUTTONDOWN 1 (820, 210)) Main.initial)
  ∈ ["Major"; "Natural Minor"; "Harmonic Minor"; "Pentatonic"]
  ∧ ∀ root,
      get_scale root
        (Main.scale_type
           (Main.handle Main.inside (MOUSEBUTTONDOWN 1 (820, 210))
              Main.initial)) ≠ [].
Proof.
  apply (scale_type_always_known Main.inside).
  apply Main.reachable_event, Main.reachable_initial.
Defined.

Example click_natural_minor :
  Main.handle Main.inside (MOUSEBUTTONDOWN 1 (820, 210)) Main.initial
  = Main.State (<[3%nat := Button.set_active true
                             (Button.init 810 200 180 40 "Natural Minor Scale"
                                WHITE BLACK true)]> Main.buttons0)
      true "Natural Minor" false false.
Proof. reflexivity. Qed.

(** X19: at most one of the scale buttons [buttons[2:]] is active, and an
    active one carries the current scale name: its text is the scale name
    followed by " Scale". *)
Theorem one_scale_button_active (collidepoint : Rect → Z * Z → bool)
    (u : Main.state) (j k : nat) (bj bk : Button.t) :
  Main.reachable collidepoint u →
  Main.buttons u !! j = Some bj → Main.buttons u !! k = Some bk →
  (2 ≤ j)%nat → (2 ≤ k)%nat →
  Button.active bj = true → Button.active bk = true →
  j = k ∧ Button.text bj = Main.scale_type u ++ " Scale".
Proof.
  intros (Hstatic & _ & Hscale & _)%reachable_ui_inv Hj Hk Hj2 Hk2 Haj Hak.
  pose proof (Hscale j bj Hj Hj2 Haj) as Htj.
  pose proof (Hscale k bk Hk Hk2 Hak) as Htk.
  assert (Hbj : Button.text <$> Main.buttons0 !! j = Some (Button.text bj)).
  { by rewrite <- Hstatic, list_lookup_fmap, Hj. }
  assert (Hbk : Button.text <$> Main.buttons0 !! k = Some (Button.text bk)).
  { by rewrite <- Hstatic, list_lookup_fmap, Hk. }
  clear Hscale Hstatic Hj Hk.
  destruct j as [|[|[|[|[|[|j]]]]]]; try lia; simpl in Hbj; try done;
    injection Hbj as Hbj; rewrite <- Hbj in Htj |- *;
    destruct k as [|[|[|[|[|[|k]]]]]]; try lia; simpl in Hbk; try done;
    injection Hbk as Hbk; rewrite <- Hbk in Htk;
    rewrite Htj in Htk |- *;
    (split; [first [reflexivity | vm_compute in Htk; discriminate]
            | reflexivity]).
Qed.

Lemma one_scale_button_active_witness :
  3%nat = 3%nat
  ∧ Button.text
      (Button.set_active true
         (Button.init 810 200 180 40 "Natural Minor Scale" WHITE BLACK true))
    = Main.scale_type
        (Main.handle Main.inside (MOUSEBUTTONDOWN 1 (820, 210)) Main.initial)
      ++ " Scale".
Proof.
  apply (one_scale_button_active Main.inside
           (Main.handle Main.inside (MOUSEBUTTONDOWN 1 (820, 210))
              Main.initial)
           3 3
           (Button.set_active true
              (Button.init 810 200 180 40 "Natural Minor Scale"
                 WHITE BLACK true))
           (Button.set_active true
              (Button.init 810 200 180 40 "Natural Minor Scale"
                 WHITE BLACK true))).
  - apply Main.reachable_event, Main.reachable_initial.
  - reflexivity.
  - reflexivity.
  - lia.
  - lia.
  - reflexivity.
  - reflexivity.
Defined.

(** X20: the two toggles follow their buttons: [show_scale] is the
    [active] of the first button and [show_note_names] the [active] of the
    second, whatever was clicked. *)
Theorem toggles_follow_buttons (collidepoint : Rect → Z * Z → bool)
    (u : Main.state) :
  Main.reachable collidepoint u →
  ∃ b0 b1,
    Main.buttons u !! 0%nat = Some b0
    ∧ Main.buttons u !! 1%nat = Some b1
    ∧ Button.text b0 = "Toggle Scale Highlight"
    ∧ Button.text b1 = "Toggle Note Names"
    ∧ Main.show_scale u = Button.active b0
    ∧ Main.show_note_names u = Button.active b1.
Proof.
  intros (Hstatic & _ & _ & H0 & H1)%reachable_ui_inv.
  assert (Htext : Button.text <$> Main.buttons u
                  = Button.text <$> Main.buttons0).
  { by rewrite <- Hstatic, <- list_fmap_compose. }
  destruct (Main.buttons u) as [|b0 [|b1 l]] eqn:Hbuttons; try done.
  exists b0, b1. injection Htext as Ht0 Ht1 _.
  split_and!; try done.
  - by apply H0.
  - by apply H1.
Qed.

Lemma toggles_follow_buttons_witness :
  ∃ b0 b1,
    Main.buttons
      (Main.handle Main.inside (MOUSEBUTTONDOWN 1 (820, 60)) Main.initial)
    !! 0%nat = Some b0
    ∧ Main.buttons
        (Main.handle Main.inside (MOUSEBUTTONDOWN 1 (820, 60)) Main.initial)
      !! 1%nat = Some b1
    ∧ Button.text b0 = "Toggle Scale Highlight"
    ∧ Button.text b1 = "Toggle Note Names"
    ∧ Main.show_scale
        (Main.handle Main.inside (MOUSEBUTTONDOWN 1 (820, 60)) Main.initial)
      = Button.active b0
    ∧ Main.show_note_names
        (Main.handle Main.inside (MOUSEBUTTONDOWN 1 (820, 60)) Main.initial)
      = Button.active b1.
Proof.
  apply (toggles_follow_buttons Main.inside).
  apply Main.reachable_event, Main.reachable_initial.
Defined.

Lemma click_unhandled (collidepoint : Rect → Z * Z → bool)
    (event : pygame_event) (u : Main.state) (l : list nat) :
  (∀ b, b ∈ Main.buttons u →
     Button.handle_event collidepoint b event = (b, false)) →
  foldl (Main.click collidepoint event) u l = u.
Proof.
  intros Hmiss. induction l as [|i l IH]; [done|].
  simpl. assert (Hclick : Main.click collidepoint event u i = u).
  { unfold Main.click. destruct (Main.buttons u !! i) as [b|] eqn:Hb; [|done].
    rewrite (Hmiss b) by by apply list_elem_of_lookup_2 in Hb.
    rewrite (list_insert_id _ _ _ Hb). by destruct u. }
  by rewrite Hclick.
Qed.

(** X21: only a click of the left mouse button on a button acts.  An event
    of another type, a click of another mouse button, and a click of the
    left button at a position that is in no button's rectangle leave the
    buttons, the scale name and the toggles as they are; [QUIT] clears
    [running] and nothing else. *)
Theorem only_left_click_acts (collidepoint : Rect → Z * Z → bool)
    (u : Main.state) :
  Main.handle collidepoint OtherEvent u = u
  ∧ (∀ button pos, button ≠ 1 →
       Main.handle collidepoint (MOUSEBUTTONDOWN button pos) u = u)
  ∧ (∀ pos,
       (∀ b, b ∈ Main.buttons u → collidepoint (Button.rect b) pos = false) →
       Main.handle collidepoint (MOUSEBUTTONDOWN 1 pos) u = u)
  ∧ Main.handle collidepoint QUIT u
    = Main.State (Main.buttons u) false (Main.scale_type u)
        (Main.show_scale u) (Main.show_note_names u).
Proof.
  unfold Main.handle. split_and!.
  - by apply click_unhandled.
  - intros button pos Hbutton. apply click_unhandled.
    intros b _. unfold Button.handle_event. by rewrite decide_False.
  - intros pos Hmiss. apply click_unhandled.
    intros b Hb. unfold Button.handle_event.
    rewrite decide_True by done. by rewrite Hmiss.
  - by apply click_unhandled.
Qed.

Lemma only_left_click_acts_witness :
  Main.handle Main.inside (MOUSEBUTTONDOWN 1 (400, 400)) Main.initial
  = Main.initial.
Proof.
  apply (proj1 (proj2 (proj2 (only_left_click_acts Main.inside Main.initial)))).
  intros b Hb. unfold Main.initial, Main.buttons, Main.buttons0 in Hb.
  rewrite !elem_of_cons, elem_of_nil in Hb.
  destruct_or!; try done; subst b; reflexivity.
Defined.

Lemma note_on_held_note_witness :
  ∃ s', process_event (0x90, 61, 100)
          (Engine {[61]} {["C#/Db"]} {[61 := SineSound 61]} (Some 1))
        = (Ok (), s')
    ∧ pressed_midi_notes s'
      = pressed_midi_notes
          (Engine {[61]} {["C#/Db"]} {[61 := SineSound 61]} (Some 1))
    ∧ scale_root s'
      = (if decide
              (size (pressed_midi_notes
                       (Engine {[61]} {["C#/Db"]} {[61 := SineSound 61]}
                          (Some 1))) = 1%nat)
         then Some (61 mod 12)
         else scale_root
                (Engine {[61]} {["C#/Db"]} {[61 := SineSound 61]} (Some 1))).
Proof.
  apply (note_on_held_note
           (Engine {[61]} {["C#/Db"]} {[61 := SineSound 61]} (Some 1))
           0x90 61 100).
  - apply (reachable_event initial _ (0x90, 61, 100) reachable_initial).
    vm_compute. reflexivity.
  - reflexivity.
  - lia.
  - cbn [pressed_midi_notes]. by apply elem_of_singleton.
Defined.
